(** * Markdown pipeline of the editor: embedding and checked properties

    The repository holds two near-identical copies of the markdown utilities
    ([src/unnamed/part_004], the copy "FIXED for SSR", and
    [src/unnamed/part_005]).  The metadata functions ([extractHeadings],
    [countWords], [estimateReadingTime]) are textually the same in both and
    are embedded once; the functions that differ ([highlightCode], the
    renderer and [parseMarkdown]) are embedded per copy in the modules
    [Part004] and [Part005].

    JavaScript strings are modelled as lists of code units restricted to the
    range 0..255 (ASCII and Latin-1); the character classes below are the
    ECMAScript ones cut down to that range.  JavaScript numbers are
    modelled as IEEE 754 doubles: exact rational values, rounded to the
    nearest double after each operation. *)

From Stdlib Require Import Ascii String DecimalString.
From Stdlib Require Import ZArith QArith Qround Qpower Qreduction.
From Stdlib Require Import List Bool Arith Lia Lqa Sorted.
Import ListNotations.

Set Implicit Arguments.

Local Open Scope string_scope.
Local Open Scope list_scope.
Local Open Scope nat_scope.

(** ** Strings *)

Definition jsstring := list ascii.

Coercion list_ascii_of_string : string >-> list.

(** The double quote and the apostrophe, which the markup quotes. *)
Definition dq : jsstring := ["034"%char].
Definition sq : jsstring := ["039"%char].

Definition nl : jsstring := ["010"%char].

(** [quoted s] is [s] between double quotes, as in an attribute value. *)
Definition quoted (s : jsstring) : jsstring := dq ++ s ++ dq.

Definition char_code (c : ascii) : nat := nat_of_ascii c.

Definition is_char (a c : ascii) : bool := Ascii.eqb a c.

Definition in_range (lo hi : nat) (c : ascii) : bool :=
  (lo <=? char_code c) && (char_code c <=? hi).

(** ECMAScript LineTerminator: LF and CR (U+2028 and U+2029 are out of range). *)
Definition is_line_terminator (c : ascii) : bool :=
  (char_code c =? 10) || (char_code c =? 13).

(** ECMAScript [\s]: TAB, LF, VT, FF, CR, SP and NBSP in this range. *)
Definition is_space (c : ascii) : bool :=
  in_range 9 13 c || (char_code c =? 32) || (char_code c =? 160).

(** [.] without the [s] flag. *)
Definition is_dot (c : ascii) : bool := negb (is_line_terminator c).

(** [[\s\S]] *)
Definition is_any (c : ascii) : bool := is_space c || negb (is_space c).

(** [\d] *)
Definition is_digit (c : ascii) : bool := in_range 48 57 c.

(** [\w] *)
Definition is_word (c : ascii) : bool :=
  in_range 97 122 c || in_range 65 90 c || is_digit c || (char_code c =? 95).


(** [String.prototype.toLowerCase] on the modelled range: A-Z and the
    Latin-1 capitals (U+00C0..U+00DE except the multiplication sign). *)
Definition lower_char (c : ascii) : ascii :=
  if in_range 65 90 c || (in_range 192 222 c && negb (char_code c =? 215))
  then ascii_of_nat (char_code c + 32) else c.

Definition toLowerCase (s : jsstring) : jsstring := map lower_char s.

Fixpoint take_while (p : ascii -> bool) (s : jsstring) : jsstring :=
  match s with
  | c :: s' => if p c then c :: take_while p s' else []
  | [] => []
  end.

Fixpoint drop_while (p : ascii -> bool) (s : jsstring) : jsstring :=
  match s with
  | c :: s' => if p c then drop_while p s' else s
  | [] => []
  end.

(** [String.prototype.trim] *)
Definition trim (s : jsstring) : jsstring :=
  rev (drop_while is_space (rev (drop_while is_space s))).

(** [String.prototype.startsWith] *)
Fixpoint startsWith (s p : jsstring) {struct p} : bool :=
  match p, s with
  | [], _ => true
  | a :: p', c :: s' => is_char a c && startsWith s' p'
  | _ :: _, [] => false
  end.

(** Substring test, [String.prototype.includes]. *)
Fixpoint includes (s p : jsstring) : bool :=
  startsWith s p ||
  match s with
  | [] => false
  | _ :: s' => includes s' p
  end.

(** A JavaScript value used as a condition: the empty string is falsy. *)
Definition truthy (s : jsstring) : bool :=
  match s with [] => false | _ :: _ => true end.

(** ** Regular expressions

    Every pattern of the source is a sequence of quantified character
    classes, some of them captured, with optional [^] and [$] under the [m]
    flag.  The matcher is the backtracking one of ECMAScript on that
    fragment: a greedy quantifier takes as many characters as it can and
    gives them back one at a time, a lazy one starts from its minimum. *)

Inductive atom : Type :=
| Cls (p : ascii -> bool) (lo : nat) (hi : option nat) (greedy capture : bool)
| Bol
| Eol.

Definition regex := list atom.

Definition below (n : nat) (hi : option nat) : bool :=
  match hi with
  | Some h => n <? h
  | None => true
  end.

(** [^] with the [m] flag: at the start, or just after a line terminator. *)
Definition at_bol (prev : option ascii) : bool :=
  match prev with
  | None => true
  | Some c => is_line_terminator c
  end.

(** [$] with the [m] flag: at the end, or just before a line terminator. *)
Definition at_eol (s : jsstring) : bool :=
  match s with
  | [] => true
  | c :: _ => is_line_terminator c
  end.

Definition push_capture (capture : bool) (acc : jsstring) (caps : list jsstring)
  : list jsstring :=
  if capture then caps ++ [rev acc] else caps.

Definition outcome := option (list jsstring * nat).

(** The loop of one quantified class: [k] characters taken so far, [acc]
    holding them in reverse, [cont] the rest of the pattern. *)
Fixpoint cls_loop (p : ascii -> bool) (lo : nat) (hi : option nat)
  (greedy : bool) (cont : nat -> jsstring -> option ascii -> jsstring -> outcome)
  (k : nat) (acc : jsstring) (prev : option ascii) (s : jsstring)
  {struct s} : outcome :=
  let here (_ : unit) := if lo <=? k then cont k acc prev s else None in
  let more (_ : unit) :=
    match s with
    | c :: s' =>
        if p c && below k hi
        then cls_loop p lo hi greedy cont (S k) (c :: acc) (Some c) s'
        else None
    | [] => None
    end in
  if greedy
  then match more tt with Some r => Some r | None => here tt end
  else match here tt with Some r => Some r | None => more tt end.

(** [run re prev s n caps]: match [re] against a prefix of [s]; [prev] is the
    character just before [s], [n] the number of characters matched so far
    and [caps] the groups captured so far.  The result is the groups and the
    length of the match. *)
Fixpoint run (re : regex) (prev : option ascii) (s : jsstring) (n : nat)
  (caps : list jsstring) {struct re} : outcome :=
  match re with
  | [] => Some (caps, n)
  | Bol :: re' => if at_bol prev then run re' prev s n caps else None
  | Eol :: re' => if at_eol s then run re' prev s n caps else None
  | Cls p lo hi greedy capture :: re' =>
      cls_loop p lo hi greedy
        (fun k acc prev s => run re' prev s (n + k) (push_capture capture acc caps))
        0 [] prev s
  end.

(** One piece of a replacement string: literal text or [$i]. *)
Inductive piece : Type :=
| Lit (s : jsstring)
| Grp (i : nat).

Definition template := list piece.

Definition expand (t : template) (caps : list jsstring) : jsstring :=
  flat_map (fun p => match p with
                     | Lit s => s
                     | Grp i => nth (i - 1) caps []
                     end) t.

(** [s.replace(re, t)] for a regular expression with the [g] flag.  [skip]
    counts the characters of the current match that are still to be passed
    over.  After an empty match the scan moves on by one character. *)
Fixpoint replace_from (re : regex) (t : template) (prev : option ascii)
  (skip : nat) (s : jsstring) : jsstring :=
  match s with
  | [] =>
      match skip, run re prev [] 0 [] with
      | 0, Some (caps, _) => expand t caps
      | _, _ => []
      end
  | c :: s' =>
      match skip with
      | S k => replace_from re t (Some c) k s'
      | 0 =>
          match run re prev s 0 [] with
          | Some (caps, 0) => expand t caps ++ c :: replace_from re t (Some c) 0 s'
          | Some (caps, S k) => expand t caps ++ replace_from re t (Some c) k s'
          | None => c :: replace_from re t (Some c) 0 s'
          end
      end
  end.

Definition replace (re : regex) (t : template) (s : jsstring) : jsstring :=
  replace_from re t None 0 s.

(** A match as [exec] reports it: its index and its groups. *)
Record rmatch : Type := { index : nat; groups : list jsstring }.

(** The successive results of [re.exec(s)] for a [g] regular expression whose
    matches are not empty, until it returns [null]. *)
Fixpoint exec_from (re : regex) (prev : option ascii) (skip pos : nat)
  (s : jsstring) : list rmatch :=
  match s with
  | [] => []
  | c :: s' =>
      match skip with
      | S k => exec_from re (Some c) k (S pos) s'
      | 0 =>
          match run re prev s 0 [] with
          | Some (caps, n) =>
              {| index := pos; groups := caps |}
                :: exec_from re (Some c) (n - 1) (S pos) s'
          | None => exec_from re (Some c) 0 (S pos) s'
          end
      end
  end.

Definition exec_all (re : regex) (s : jsstring) : list rmatch :=
  exec_from re None 0 0 s.

(** [s.split(re)] for a non-empty [s]: the pieces between the matches.  [cur]
    is the current piece, reversed; a match that ends where the current
    piece starts (an empty match there) is passed over. *)
Fixpoint split_from (re : regex) (prev : option ascii) (skip : nat)
  (cur : jsstring) (s : jsstring) : list jsstring :=
  match s with
  | [] => [rev cur]
  | c :: s' =>
      match skip with
      | S k => split_from re (Some c) k [] s'
      | 0 =>
          match run re prev s 0 [] with
          | Some (_, 0) =>
              match cur with
              | [] => split_from re (Some c) 0 [c] s'
              | _ :: _ => rev cur :: split_from re (Some c) 0 [c] s'
              end
          | Some (_, S k) => rev cur :: split_from re (Some c) k [] s'
          | None => split_from re (Some c) 0 (c :: cur) s'
          end
      end
  end.

Definition split (re : regex) (s : jsstring) : list jsstring :=
  split_from re None 0 [] s.

(** Shorthands for the atoms of the patterns. *)
Definition chr (a : ascii) : atom := Cls (is_char a) 1 (Some 1) true false.
Definition plus (p : ascii -> bool) : atom := Cls p 1 None true false.
Definition plus_lazy_group (p : ascii -> bool) : atom := Cls p 1 None false true.
Definition plus_lazy (p : ascii -> bool) : atom := Cls p 1 None false false.
Definition star_lazy (p : ascii -> bool) : atom := Cls p 0 None false false.

(** ** Numbers

    A JavaScript number is an IEEE 754 double.  A finite one is given by
    its exact value, a rational; zero has a sign.  Arithmetic computes the
    exact result and rounds it once to the nearest double, ties to the even
    significand: 53 binary digits, exponents of the last digit from -1074
    (the subnormal numbers) upwards, overflow to infinity from 2^1024 on. *)

Inductive number : Type :=
| Finite (q : Q)
| NegativeZero
| Infinity (negative : bool)
| NaN.

(** The integer part of the binary logarithm of [q > 0]. *)
Definition ilog2 (q : Q) : Z :=
  let l := (Z.log2 (Qnum q) - Z.log2 (Zpos (Qden q)))%Z in
  if Qle_bool (2 ^ l)%Q q then l else (l - 1)%Z.

(** The nearest integer, the even one of two that are equally near. *)
Definition round_half_even (q : Q) : Z :=
  let f := Qfloor q in
  match (q - inject_Z f ?= 1 # 2)%Q with
  | Lt => f
  | Gt => (f + 1)%Z
  | Eq => if Z.even f then f else (f + 1)%Z
  end.

(** The exponent of the last of the 53 binary digits of [q > 0], not
    below that of the subnormal numbers. *)
Definition ulp_exponent (q : Q) : Z := Z.max (ilog2 q - 52) (-1074).

(** The multiple of [2 ^ ulp_exponent q] nearest to [q > 0]. *)
Definition nearest_value (q : Q) : Q :=
  let e := ulp_exponent q in
  (inject_Z (round_half_even (q / 2 ^ e)) * 2 ^ e)%Q.

(** The double nearest to [q > 0]. *)
Definition nearest (q : Q) : number :=
  let v := nearest_value q in
  if Qle_bool (2 ^ 1024)%Q v then Infinity false else Finite (Qred v).

Definition negate (x : number) : number :=
  match x with
  | Finite q => if Qeq_bool q 0 then NegativeZero else Finite (- q)%Q
  | NegativeZero => Finite 0
  | Infinity b => Infinity (negb b)
  | NaN => NaN
  end.

(** The double that an exact result [q] is rounded to. *)
Definition round_to_double (q : Q) : number :=
  match (q ?= 0)%Q with
  | Eq => Finite 0
  | Gt => nearest q
  | Lt => negate (nearest (- q)%Q)
  end.

Definition is_negative (x : number) : bool :=
  match x with
  | Finite q => match (q ?= 0)%Q with Lt => true | _ => false end
  | NegativeZero => true
  | Infinity b => b
  | NaN => false
  end.

Definition zero (negative : bool) : number :=
  if negative then NegativeZero else Finite 0.

(** [x / y] *)
Definition divide (x y : number) : number :=
  match x, y with
  | NaN, _ | _, NaN => NaN
  | Infinity _, Infinity _ => NaN
  | Infinity a, _ => Infinity (xorb a (is_negative y))
  | _, Infinity b => zero (xorb (is_negative x) b)
  | Finite a, Finite b =>
      if Qeq_bool b 0
      then (if Qeq_bool a 0 then NaN else Infinity (is_negative x))
      else if Qeq_bool a 0 then zero (is_negative y)
      else round_to_double (a / b)%Q
  | Finite a, NegativeZero =>
      if Qeq_bool a 0 then NaN else Infinity (negb (is_negative x))
  | NegativeZero, Finite b =>
      if Qeq_bool b 0 then NaN else zero (negb (is_negative y))
  | NegativeZero, NegativeZero => NaN
  end.

(** [Math.ceil(x)]: the ceiling of a double is a double. *)
Definition Math_ceil (x : number) : number :=
  match x with
  | Finite q =>
      let z := Qceiling q in
      if (z =? 0)%Z && is_negative x then NegativeZero else Finite (inject_Z z)
  | _ => x
  end.

(** The value of a finite number. *)
Definition number_value (x : number) : Q :=
  match x with
  | Finite q => q
  | _ => 0%Q
  end.

(** [x <= y] *)
Definition number_le (x y : number) : Prop :=
  match x, y with
  | NaN, _ | _, NaN => False
  | Infinity true, _ => True
  | _, Infinity false => True
  | Infinity false, _ => False
  | _, Infinity true => False
  | _, _ => (number_value x <= number_value y)%Q
  end.

(** The number that holds the length [n] of an array or a string. *)
Definition number_of_nat (n : nat) : number :=
  round_to_double (inject_Z (Z.of_nat n)).

(** ** Metadata extractor (the same text in both copies) *)

Record Heading : Type := { level : nat; text : jsstring; id : jsstring }.

(** [/[^\w]+/g] *)
Definition re_non_word : regex := [plus (fun c => negb (is_word c))].

(** [text.toLowerCase().replace(/[^\w]+/g, '-')] *)
Definition slug (text : jsstring) : jsstring :=
  replace re_non_word [Lit "-"] (toLowerCase text).

(** [/^(#{1,6})\s+(.+)$/gm] *)
Definition headingRegex : regex :=
  [Bol; Cls (is_char "#") 1 (Some 6) true true; plus is_space;
   Cls is_dot 1 None true true; Eol].

Definition heading_of_match (m : rmatch) : Heading :=
  let text := trim (nth 1 (groups m) []) in
  {| level := length (nth 0 (groups m) []); text := text; id := slug text |}.

Definition extractHeadings (markdown : jsstring) : list Heading :=
  map heading_of_match (exec_all headingRegex markdown).

(** The patterns of [countWords], in the order of the source. *)
Definition re_heading_marker : regex :=
  [Cls (is_char "#") 1 (Some 6) true false; plus is_space].
Definition re_bold : regex :=
  [chr "*"; chr "*"; plus_lazy_group is_dot; chr "*"; chr "*"].
Definition re_italic : regex := [chr "*"; plus_lazy_group is_dot; chr "*"].
Definition re_inline_code : regex := [chr "`"; plus_lazy_group is_dot; chr "`"].
Definition re_code_block : regex :=
  [chr "`"; chr "`"; chr "`"; star_lazy is_any; chr "`"; chr "`"; chr "`"].
Definition re_link : regex :=
  [chr "["; plus_lazy_group is_dot; chr "]"; chr "("; plus_lazy is_dot; chr ")"].
Definition re_image : regex :=
  [chr "!"; chr "["; star_lazy is_dot; chr "]"; chr "("; plus_lazy is_dot; chr ")"].
Definition re_blockquote : regex := [chr ">"; plus is_space].
Definition is_bullet (c : ascii) : bool :=
  is_char "-" c || is_char "*" c || is_char "+" c.
Definition re_list_marker : regex :=
  [Cls is_bullet 1 (Some 1) true false; plus is_space].
Definition re_ordered_marker : regex := [plus is_digit; chr "."; plus is_space].
Definition re_newline : regex := [chr "010"].
Definition re_spaces : regex := [plus is_space].

(** The chain of replacements of [countWords], up to and including [trim]. *)
Definition plainText (markdown : jsstring) : jsstring :=
  trim
    (replace re_newline [Lit " "]
    (replace re_ordered_marker []
    (replace re_list_marker []
    (replace re_blockquote []
    (replace re_image []
    (replace re_link [Grp 1]
    (replace re_code_block []
    (replace re_inline_code [Grp 1]
    (replace re_italic [Grp 1]
    (replace re_bold [Grp 1]
    (replace re_heading_marker [] markdown))))))))))).

Definition countWords (markdown : jsstring) : nat :=
  let plain := plainText markdown in
  if truthy plain then length (split re_spaces plain) else 0.

(** [Math.ceil(wordCount / wpm)], with [wpm = 200] when the argument is
    omitted. *)
Definition estimateReadingTime (wordCount : number) (wpm : option number) : number :=
  let wpm := match wpm with Some w => w | None => Finite 200 end in
  Math_ceil (divide wordCount wpm).

(** ** Exceptions and collaborators *)

(** What a [catch] clause receives: an [Error] with its message, or any
    other thrown value. *)
Inductive thrown : Type :=
| ErrorObject (message : jsstring)
| OtherValue.

Inductive Result (A : Type) : Type :=
| Ok (a : A)
| Throw (e : thrown).

Arguments Ok {A} a.
Arguments Throw {A} e.

(** An entry of [Prism.languages]: a grammar object, or one of the helper
    functions stored in the same table (truthy, but not an object). *)
Inductive prism_value : Type :=
| Grammar (name : jsstring)
| Helper.

Record Prism : Type := {
  prism_languages : jsstring -> option prism_value;
  prism_highlight : jsstring -> prism_value -> jsstring -> Result jsstring
}.

Definition HighlightFn := jsstring -> jsstring -> Result jsstring.

(** [MarkdownOptions]; a field left out of the object literal is [None]. *)
Record MarkdownOptions : Type := {
  breaks : option bool;
  gfm : option bool;
  sanitize : option bool;
  highlight : option HighlightFn
}.

(** The render rules installed on [marked.Renderer]. *)
Record Renderer : Type := {
  r_heading : jsstring -> nat -> jsstring;
  r_code : jsstring -> option jsstring -> Result jsstring;
  r_codespan : jsstring -> jsstring;
  r_link : jsstring -> option jsstring -> jsstring -> Result jsstring;
  r_table : jsstring -> jsstring -> jsstring;
  r_blockquote : jsstring -> jsstring;
  r_list : jsstring -> bool -> jsstring
}.

(** The argument of [marked.setOptions]. *)
Record MarkedOptions : Type := {
  renderer : Renderer;
  m_breaks : option bool;
  m_gfm : option bool
}.

(** The third argument of [DOMPurify.sanitize]. *)
Record SanitizeConfig : Type := {
  ALLOWED_TAGS : list jsstring;
  ALLOWED_ATTR : list jsstring;
  KEEP_CONTENT : bool
}.

Record Location : Type := { origin : jsstring }.
Record Window : Type := { location : option Location }.

(** The execution environment: the global [window] when there is one, and
    the three libraries the module imports.  [marked_parse o m] stands for
    [marked.setOptions(o)] followed at once by [marked.parse(m)];
    [engine_error x] is the error the JavaScript engine raises when the
    undefined binding [x] is used. *)
Record Env : Type := {
  window : option Window;
  prism : Prism;
  marked_parse : MarkedOptions -> jsstring -> Result jsstring;
  DOMPurify : option (SanitizeConfig -> jsstring -> Result jsstring);
  engine_error : jsstring -> thrown
}.

(** [a ?? d] *)
Definition nullish {A : Type} (a : option A) (d : A) : A :=
  match a with Some x => x | None => d end.

(** [options?.f] *)
Definition field {A : Type} (f : MarkdownOptions -> option A)
  (options : option MarkdownOptions) : option A :=
  match options with Some o => f o | None => None end.

Definition spaces (n : nat) : jsstring := repeat " "%char n.

Definition decimal (n : nat) : jsstring :=
  list_ascii_of_string (NilEmpty.string_of_uint (Nat.to_uint n)).

(** ** The parts shared by both copies *)

(** The chain of five replacements that escapes the ampersand, the angle
    brackets, the double quote and the apostrophe; [part_004] has it twice,
    as the fallback of [highlightCode] and in the [catch] clause of the code
    rule, [part_005] not at all. *)
Definition escapeHtml (code : jsstring) : jsstring :=
  replace [chr "039"] [Lit "&#39;"]
    (replace [chr "034"] [Lit "&quot;"]
    (replace [chr ">"] [Lit "&gt;"]
    (replace [chr "<"] [Lit "&lt;"]
    (replace [chr "&"] [Lit "&amp;"] code)))).

Definition languageMap : list (jsstring * jsstring) :=
  [("js" : jsstring, "javascript" : jsstring);
   ("ts" : jsstring, "typescript" : jsstring);
   ("py" : jsstring, "python" : jsstring);
   ("sh" : jsstring, "bash" : jsstring);
   ("shell" : jsstring, "bash" : jsstring);
   ("yml" : jsstring, "yaml" : jsstring);
   ("md" : jsstring, "markdown" : jsstring);
   ("cs" : jsstring, "csharp" : jsstring)].

Fixpoint str_eqb (a b : jsstring) : bool :=
  match a, b with
  | [], [] => true
  | x :: a', y :: b' => is_char x y && str_eqb a' b'
  | _, _ => false
  end.

Fixpoint assoc (k : jsstring) (m : list (jsstring * jsstring)) : option jsstring :=
  match m with
  | [] => None
  | (k', v) :: m' => if str_eqb k k' then Some v else assoc k m'
  end.

(** [languageMap[lang] || lang], over the own keys of the table. *)
Definition normalizedLang (lang : jsstring) : jsstring :=
  match assoc lang languageMap with
  | Some v => if truthy v then v else lang
  | None => lang
  end.

Definition placeholder : jsstring :=
  "<p class=" ++ quoted "text-muted-foreground italic"
    ++ ">Start typing to see preview...</p>".

(** The markup returned from the [catch] clause of [parseMarkdown]. *)
Definition error_markup (e : thrown) : jsstring :=
  "<p class=" ++ quoted "text-red-500" ++ ">Error parsing markdown: "
    ++ match e with
       | ErrorObject message => message
       | OtherValue => "Unknown error" : jsstring
       end
    ++ "</p>".

Definition sanitize_config : SanitizeConfig :=
  {| ALLOWED_TAGS :=
       map list_ascii_of_string
         ["h1"; "h2"; "h3"; "h4"; "h5"; "h6";
          "p"; "br"; "strong"; "em"; "u"; "s"; "del"; "ins";
          "ul"; "ol"; "li"; "dl"; "dt"; "dd";
          "blockquote"; "q"; "cite";
          "code"; "pre"; "kbd"; "samp"; "var";
          "a"; "img"; "figure"; "figcaption";
          "table"; "thead"; "tbody"; "tfoot"; "tr"; "td"; "th"; "caption";
          "div"; "span"; "section"; "article"; "aside"; "nav"; "header"; "footer";
          "hr"; "details"; "summary"];
     ALLOWED_ATTR :=
       map list_ascii_of_string
         ["href"; "title"; "alt"; "src"; "width"; "height";
          "class"; "id"; "lang"; "dir";
          "target"; "rel"; "type"; "start"; "reversed";
          "open"; "colspan"; "rowspan"; "scope"];
     KEEP_CONTENT := true |}.

(** [options?.sanitize !== false] *)
Definition sanitize_requested (options : option MarkdownOptions) : bool :=
  match field sanitize options with
  | Some false => false
  | _ => true
  end.

Definition renderer_heading (text : jsstring) (level : nat) : jsstring :=
  "<h" ++ decimal level ++ " id=" ++ quoted (slug text)
    ++ " class=" ++ quoted ("heading-" ++ decimal level) ++ ">"
    ++ text ++ "</h" ++ decimal level ++ ">".

(** The markup around a highlighted block, line by line as in the template. *)
Definition code_block (lang highlighted : jsstring) : jsstring :=
  nl ++ spaces 6 ++ "<div class=" ++ quoted "code-block" ++ ">"
  ++ nl ++ spaces 8 ++ "<div class=" ++ quoted "code-header" ++ ">"
  ++ nl ++ spaces 10 ++ "<span class=" ++ quoted "code-language" ++ ">"
       ++ lang ++ "</span>"
  ++ nl ++ spaces 8 ++ "</div>"
  ++ nl ++ spaces 8 ++ "<pre class=" ++ quoted ("language-" ++ lang) ++ ">"
       ++ "<code class=" ++ quoted ("language-" ++ lang) ++ ">"
       ++ highlighted ++ "</code></pre>"
  ++ nl ++ spaces 6 ++ "</div>"
  ++ nl ++ spaces 4.

Definition renderer_codespan (code : jsstring) : jsstring :=
  "<code class=" ++ quoted "inline-code" ++ ">" ++ code ++ "</code>".

(** The [title] attribute, present when [title] is truthy. *)
Definition titleAttr (title : option jsstring) : jsstring :=
  match title with
  | Some t => if truthy t then " title=" ++ quoted t else []
  | None => []
  end.

Definition relAttr (isExternal : bool) : jsstring :=
  if isExternal then " rel=" ++ quoted "noopener noreferrer" else [].

Definition targetAttr (isExternal : bool) : jsstring :=
  if isExternal then " target=" ++ quoted "_blank" else [].

Definition anchor (href : jsstring) (title : option jsstring)
  (isExternal : bool) (text : jsstring) : jsstring :=
  "<a href=" ++ quoted href ++ titleAttr title ++ relAttr isExternal
    ++ targetAttr isExternal ++ " class=" ++ quoted "link" ++ ">"
    ++ text ++ "</a>".

Definition renderer_table (header body : jsstring) : jsstring :=
  nl ++ spaces 6 ++ "<div class=" ++ quoted "table-wrapper" ++ ">"
  ++ nl ++ spaces 8 ++ "<table class=" ++ quoted "markdown-table" ++ ">"
  ++ nl ++ spaces 10 ++ "<thead>" ++ header ++ "</thead>"
  ++ nl ++ spaces 10 ++ "<tbody>" ++ body ++ "</tbody>"
  ++ nl ++ spaces 8 ++ "</table>"
  ++ nl ++ spaces 6 ++ "</div>"
  ++ nl ++ spaces 4.

Definition renderer_blockquote (quote : jsstring) : jsstring :=
  "<blockquote class=" ++ quoted "blockquote" ++ ">" ++ quote ++ "</blockquote>".

Definition renderer_list (body : jsstring) (ordered : bool) : jsstring :=
  let tag : jsstring := if ordered then "ol" else "ul" in
  let className : jsstring := if ordered then "ordered-list" else "unordered-list" in
  "<" ++ tag ++ " class=" ++ quoted className ++ ">" ++ body ++ "</" ++ tag ++ ">".

(** ** The copy fixed for server-side rendering ([part_004]) *)

Module Part004.

(** [Prism.highlight] runs only on a grammar object; a failure of Prism is
    caught, and every other path ends in the escaped code.  The
    [console.warn] of the [catch] clause is not modelled. *)
Definition highlightCode (P : Prism) (code lang : jsstring) : jsstring :=
  let normalized := normalizedLang lang in
  match prism_languages P normalized with
  | Some (Grammar g) =>
      match prism_highlight P code (Grammar g) normalized with
      | Ok html => html
      | Throw _ => escapeHtml code
      end
  | Some Helper => escapeHtml code
  | None => escapeHtml code
  end.

Definition isBrowser (env : Env) : bool :=
  match window env with Some _ => true | None => false end.

Definition getCurrentOrigin (env : Env) : jsstring :=
  match window env with
  | Some w =>
      match location w with
      | Some l => origin l
      | None => []
      end
  | None => []
  end.

Definition renderer_code (env : Env) (options : MarkdownOptions)
  (code : jsstring) (language : option jsstring) : jsstring :=
  let lang := match language with
              | Some l => if truthy l then l else "text" : jsstring
              | None => "text" : jsstring
              end in
  let highlighted :=
    match (match highlight options with
           | Some h => h code lang
           | None => Ok (highlightCode (prism env) code lang)
           end) with
    | Ok html => html
    | Throw _ => escapeHtml code
    end in
  code_block lang highlighted.

Definition isExternal (env : Env) (href : jsstring) : bool :=
  let currentOrigin := getCurrentOrigin env in
  startsWith href "http" && truthy currentOrigin
    && negb (startsWith href currentOrigin).

Definition renderer_link (env : Env) (href : jsstring) (title : option jsstring)
  (text : jsstring) : jsstring :=
  anchor href title (isExternal env href) text.

Definition configureMarked (env : Env) (options : MarkdownOptions)
  : MarkedOptions :=
  {| renderer :=
       {| r_heading := renderer_heading;
          r_code := fun code language => Ok (renderer_code env options code language);
          r_codespan := renderer_codespan;
          r_link := fun href title text => Ok (renderer_link env href title text);
          r_table := renderer_table;
          r_blockquote := renderer_blockquote;
          r_list := renderer_list |};
     m_breaks := breaks options;
     m_gfm := gfm options |}.

(** The options record that [parseMarkdown] hands to [configureMarked]. *)
Definition effective_options (env : Env) (options : option MarkdownOptions)
  : MarkdownOptions :=
  {| breaks := Some (nullish (field breaks options) true);
     gfm := Some (nullish (field gfm options) true);
     sanitize := Some (nullish (field sanitize options) true);
     highlight := Some (fun code lang => Ok (highlightCode (prism env) code lang)) |}.

Definition parseMarkdown (env : Env) (markdown : jsstring)
  (options : option MarkdownOptions) : jsstring :=
  if negb (truthy (trim markdown)) then placeholder
  else
    match marked_parse env (configureMarked env (effective_options env options))
            markdown with
    | Throw e => error_markup e
    | Ok html =>
        match DOMPurify env with
        | Some purify =>
            if sanitize_requested options && isBrowser env
            then match purify sanitize_config html with
                 | Ok clean => clean
                 | Throw e => error_markup e
                 end
            else html
        | None => html
        end
    end.

End Part004.

(** ** The earlier copy ([part_005]) *)

Module Part005.

(** Here every truthy entry of [Prism.languages] is handed to
    [Prism.highlight], and the fallback is the code as it came. *)
Definition highlightCode (P : Prism) (code lang : jsstring) : jsstring :=
  let normalized := normalizedLang lang in
  match prism_languages P normalized with
  | Some v =>
      match prism_highlight P code v normalized with
      | Ok html => html
      | Throw _ => code
      end
  | None => code
  end.

Definition renderer_code (env : Env) (options : MarkdownOptions)
  (code : jsstring) (language : option jsstring) : Result jsstring :=
  let lang := match language with
              | Some l => if truthy l then l else "text" : jsstring
              | None => "text" : jsstring
              end in
  match (match highlight options with
         | Some h => h code lang
         | None => Ok (highlightCode (prism env) code lang)
         end) with
  | Ok highlighted => Ok (code_block lang highlighted)
  | Throw e => Throw e
  end.

(** [window?.location?.origin || ''], read only once [href] is known to
    start with [http]; without a global [window] the read throws. *)
Definition isExternal (env : Env) (href : jsstring) : Result bool :=
  if startsWith href "http"
  then match window env with
       | Some w =>
           let o := match location w with
                    | Some l => origin l
                    | None => []
                    end in
           Ok (negb (startsWith href o))
       | None => Throw (engine_error env "window")
       end
  else Ok false.

Definition renderer_link (env : Env) (href : jsstring) (title : option jsstring)
  (text : jsstring) : Result jsstring :=
  match isExternal env href with
  | Ok e => Ok (anchor href title e text)
  | Throw e => Throw e
  end.

Definition configureMarked (env : Env) (options : MarkdownOptions)
  : MarkedOptions :=
  {| renderer :=
       {| r_heading := renderer_heading;
          r_code := renderer_code env options;
          r_codespan := renderer_codespan;
          r_link := renderer_link env;
          r_table := renderer_table;
          r_blockquote := renderer_blockquote;
          r_list := renderer_list |};
     m_breaks := breaks options;
     m_gfm := gfm options |}.

Definition effective_options (env : Env) (options : option MarkdownOptions)
  : MarkdownOptions :=
  {| breaks := Some (nullish (field breaks options) true);
     gfm := Some (nullish (field gfm options) true);
     sanitize := Some (nullish (field sanitize options) true);
     highlight := Some (fun code lang => Ok (highlightCode (prism env) code lang)) |}.

Definition parseMarkdown (env : Env) (markdown : jsstring)
  (options : option MarkdownOptions) : jsstring :=
  if negb (truthy (trim markdown)) then placeholder
  else
    match marked_parse env (configureMarked env (effective_options env options))
            markdown with
    | Throw e => error_markup e
    | Ok html =>
        if sanitize_requested options
        then match DOMPurify env with
             | Some purify =>
                 match purify sanitize_config html with
                 | Ok clean => clean
                 | Throw e => error_markup e
                 end
             | None => error_markup (engine_error env "DOMPurify")
             end
        else html
    end.

End Part005.

(** ** Properties of the output that the claims speak of *)




(** What replacing the character [a] by [t] does to one character. *)
Definition replace_char (a : ascii) (t : jsstring) (c : ascii) : jsstring :=
  if is_char a c then t else [c].

(** One of the four characters that [escapeHtml] must not leave behind. *)
Definition is_markup_char (c : ascii) : bool :=
  is_char "<" c || is_char ">" c || is_char "034" c || is_char "039" c.

(** [p] is a prefix of [s]. *)
Definition prefix (p s : jsstring) : Prop := exists r, s = p ++ r.

Definition line_start (pre : jsstring) : Prop :=
  pre = [] \/ exists p c, pre = p ++ [c] /\ is_line_terminator c = true.

Definition line_end (post : jsstring) : Prop :=
  post = [] \/ exists c r, post = c :: r /\ is_line_terminator c = true.


Definition starts_with_space (s : jsstring) : bool :=
  match s with
  | d :: _ => is_space d
  | [] => false
  end.



(** Some [>] is directly followed by whitespace. *)
Fixpoint has_quote_marker (s : jsstring) : bool :=
  match s with
  | c :: s' => (is_char ">" c && starts_with_space s') || has_quote_marker s'
  | [] => false
  end.

(** Deleting every [>] that is followed by whitespace, with that whitespace,
    wherever it stands in the text.  [dropping] holds while the whitespace
    after a deleted [>] is passed over. *)
Fixpoint delete_quote_markers (dropping : bool) (s : jsstring) : jsstring :=
  match s with
  | [] => []
  | c :: s' =>
      if dropping && is_space c then delete_quote_markers true s'
      else if is_char ">" c && starts_with_space s'
           then delete_quote_markers true s'
           else c :: delete_quote_markers false s'
  end.

(** Replacing every maximal run of characters outside [\w] by one hyphen.
    [in_run] holds inside a run whose hyphen is already out. *)
Fixpoint hyphenate (in_run : bool) (s : jsstring) : jsstring :=
  match s with
  | [] => []
  | c :: s' =>
      if is_word c then c :: hyphenate false s'
      else if in_run then hyphenate true s'
           else "-"%char :: hyphenate true s'
  end.

(** The character before the position reached after reading [w]. *)
Definition prev_after (w : jsstring) (prev : option ascii) : option ascii :=
  fold_left (fun _ c => Some c) w prev.

(** [n] does not exceed the upper bound of a quantifier. *)
Definition within (n : nat) (hi : option nat) : Prop :=
  match hi with
  | Some h => n <= h
  | None => True
  end.

(** A URL scheme at the head of [href] (RFC 3986: a letter, then letters,
    digits, [+], [-] or [.], then a colon); a reference without one is
    relative. *)
Definition is_alpha (c : ascii) : bool := in_range 97 122 c || in_range 65 90 c.
Definition is_scheme_char (c : ascii) : bool :=
  is_alpha c || is_digit c || is_char "+" c || is_char "-" c || is_char "." c.
Definition re_scheme : regex :=
  [Cls is_alpha 1 (Some 1) true false; Cls is_scheme_char 0 None true false; chr ":"].
Definition is_relative_reference (href : jsstring) : bool :=
  match run re_scheme None href 0 [] with
  | Some _ => false
  | None => true
  end.

(** The options of a call, with [sanitize] switched off. *)
Definition without_sanitize (options : option MarkdownOptions) : option MarkdownOptions :=
  Some {| breaks := field breaks options;
          gfm := field gfm options;
          sanitize := Some false;
          highlight := field highlight options |}.

(** The options of a call, with [highlight] set to [h]. *)
Definition with_highlight (h : option HighlightFn) (o : MarkdownOptions)
  : MarkdownOptions :=
  {| breaks := breaks o; gfm := gfm o; sanitize := sanitize o; highlight := h |}.

(** ** Sample collaborators, to run the functions on concrete inputs *)

(** The grammars that [part_004] loads into Prism. *)
Definition loaded_grammars : list jsstring :=
  map list_ascii_of_string
    ["markup"; "css"; "clike"; "javascript"; "typescript"; "jsx"; "tsx";
     "scss"; "json"; "bash"; "python"; "java"; "csharp"; "sql"; "yaml";
     "markdown"; "markup-templating"; "php"].

(** A stand-in for Prism: the loaded grammars are registered, and
    highlighting wraps the escaped code in one token span. *)
Definition sample_prism : Prism :=
  {| prism_languages := fun name =>
       if existsb (str_eqb name) loaded_grammars then Some (Grammar name) else None;
     prism_highlight := fun code _ _ =>
       Ok ("<span class=" ++ quoted "token" ++ ">" ++ escapeHtml code ++ "</span>") |}.

(** A document that is one fenced block: the fence with its info string, the
    body, the closing fence. *)
Definition re_fenced_document : regex :=
  [chr "`"; chr "`"; chr "`"; Cls is_word 0 None true true; chr "010";
   Cls is_any 0 None false true; chr "010"; chr "`"; chr "`"; chr "`"].

(** A stand-in for the parsing engine, enough for the examples: a document
    that is one fenced block goes to the code rule of the renderer with its
    info string as language; any other document is taken for a block of raw
    HTML, which the engine copies to its output. *)
Definition sample_engine (o : MarkedOptions) (markdown : jsstring) : Result jsstring :=
  match run re_fenced_document None markdown 0 [] with
  | Some (caps, n) =>
      if n =? length markdown
      then r_code (renderer o) (nth 1 caps []) (Some (nth 0 caps []))
      else Ok markdown
  | None => Ok markdown
  end.

(** A stand-in for the sanitizer: every tag is removed, the content kept. *)
Definition sample_purify (_ : SanitizeConfig) (html : jsstring) : Result jsstring :=
  Ok (replace [chr "<"; star_lazy is_any; chr ">"] [] html).

Definition sample_error (name : jsstring) : thrown :=
  ErrorObject (name ++ " is not defined").

(** No global [window]: rendering on the server. *)
Definition server_env : Env :=
  {| window := None;
     prism := sample_prism;
     marked_parse := sample_engine;
     DOMPurify := Some sample_purify;
     engine_error := sample_error |}.

(** A page served from [https://example.com]. *)
Definition browser_env : Env :=
  {| window := Some {| location := Some {| origin := "https://example.com" |} |};
     prism := sample_prism;
     marked_parse := sample_engine;
     DOMPurify := Some sample_purify;
     engine_error := sample_error |}.

(** The object literal [{sanitize: true}]. *)
Definition sanitize_only : MarkdownOptions :=
  {| breaks := None; gfm := None; sanitize := Some true; highlight := None |}.

(** The options of the preview pane, with a highlighter of the caller's. *)
Definition custom_highlight : HighlightFn := fun _ _ => Ok ("CUSTOM" : jsstring).

Definition preview_options (h : option HighlightFn) : MarkdownOptions :=
  {| breaks := Some true; gfm := Some true; sanitize := Some false; highlight := h |}.

Definition script_block : jsstring := "<script>alert(1)</script>".

Definition fenced_sample : jsstring :=
  "```" ++ nl ++ "foo bar" ++ nl ++ "```".

Definition fenced_js : jsstring :=
  "```js" ++ nl ++ "let x" ++ nl ++ "```".

(** ** The preview pane ([part_002]) *)

(** The metadata that [Preview] computes from the content of the editor. *)
Record Metadata : Type := {
  headings : list Heading;
  wordCount : nat;
  readingTime : number;
  hasContent : bool
}.

Definition metadata (content : jsstring) : Metadata :=
  let headings := extractHeadings content in
  let wordCount := countWords content in
  let readingTime := estimateReadingTime (number_of_nat wordCount) None in
  {| headings := headings;
     wordCount := wordCount;
     readingTime := readingTime;
     hasContent := 0 <? length (trim content) |}.

(** The options literal that [Preview] passes to [parseMarkdown]. *)
Definition preview_call_options : MarkdownOptions :=
  {| breaks := Some true; gfm := Some true; sanitize := Some true; highlight := None |}.

(** ** Direct readings, to state what the functions compute *)

(** What the escaping makes of one character. *)
Definition escape_char (c : ascii) : jsstring :=
  if is_char "&" c then "&amp;"
  else if is_char "<" c then "&lt;"
  else if is_char ">" c then "&gt;"
  else if is_char "034" c then "&quot;"
  else if is_char "039" c then "&#39;"
  else [c].

(** A lower-case letter, a digit, the underscore or the hyphen. *)
Definition is_slug_char (c : ascii) : bool :=
  in_range 97 122 c || is_digit c || (char_code c =? 95) || is_char "-" c.

(** No hyphen is directly followed by another. *)
Fixpoint no_double_hyphen (s : jsstring) : bool :=
  match s with
  | c :: s' =>
      negb (is_char "-" c && match s' with d :: _ => is_char "-" d | [] => false end)
      && no_double_hyphen s'
  | [] => true
  end.

(** Some [#] stands at the start of a line; [bol] tells whether [s] itself
    starts one. *)
Fixpoint hash_at_line_start (bol : bool) (s : jsstring) : bool :=
  match s with
  | c :: s' => (bol && is_char "#" c) || hash_at_line_start (is_line_terminator c) s'
  | [] => false
  end.

(** The number of maximal runs of characters that are not whitespace;
    [in_word] holds when the run before [s] is still open. *)
Fixpoint words (in_word : bool) (s : jsstring) : nat :=
  match s with
  | c :: s' =>
      if is_space c then words false s'
      else (if in_word then 0 else 1) + words true s'
  | [] => 0
  end.

(** The number of maximal runs of whitespace; [in_gap] holds when the run
    before [s] is still open. *)
Fixpoint gaps (in_gap : bool) (s : jsstring) : nat :=
  match s with
  | c :: s' =>
      if is_space c then (if in_gap then 0 else 1) + gaps true s'
      else gaps false s'
  | [] => 0
  end.

(** The characters that one of the patterns of [countWords] starts from or
    cannot do without: the hash, the star, the backtick, the opening
    bracket, the greater-than sign, the hyphen, the plus and the digits. *)
Definition is_trigger (c : ascii) : bool :=
  is_char "#" c || is_char "*" c || is_char "`" c || is_char "[" c
  || is_char ">" c || is_char "-" c || is_char "+" c || is_digit c.

(** The double that holds a count of [n] words, and the double that its
    quotient by 200 is rounded to, as exact values. *)
Definition rounded_count (n : nat) : Q := nearest_value (inject_Z (Z.of_nat n)).

Definition rounded_minutes (n : nat) : Q :=
  nearest_value (Qred (rounded_count n) / 200)%Q.

(** [a] is [b] with some characters left out. *)
Inductive subseq : jsstring -> jsstring -> Prop :=
| subseq_nil : subseq [] []
| subseq_skip (c : ascii) (a b : jsstring) : subseq a b -> subseq a (c :: b)
| subseq_take (c : ascii) (a b : jsstring) : subseq a b -> subseq (c :: a) (c :: b).

(** An environment whose parser throws an [Error] on every document. *)
Definition failing_env : Env :=
  {| window := Some {| location := Some {| origin := "https://example.com" |} |};
     prism := sample_prism;
     marked_parse := fun _ _ => Throw (ErrorObject "boom");
     DOMPurify := Some sample_purify;
     engine_error := sample_error |}.



(** * Properties *)

Unset Implicit Arguments.

Arguments is_char : simpl never.
Arguments is_space : simpl never.
Arguments is_word : simpl never.
Arguments is_dot : simpl never.
Arguments is_line_terminator : simpl never.

(** ** Characters and strings *)

Lemma is_char_true (a c : ascii) : is_char a c = true <-> a = c.
Proof. unfold is_char. apply Ascii.eqb_eq. Qed.

Lemma startsWith_prefix (s p : jsstring) : startsWith s p = true <-> prefix p s.
Proof.
  revert s. induction p as [|a p IH]; intros s; simpl.
  - split; [intros _; exists s; reflexivity | reflexivity].
  - destruct s as [|c s].
    + split; [discriminate | intros [r Hr]; discriminate].
    + rewrite andb_true_iff, is_char_true, IH. split.
      * intros [-> [r ->]]. exists r. reflexivity.
      * intros [r Hr]. injection Hr as -> ->. split; [reflexivity | exists r; reflexivity].
Qed.

Lemma drop_while_all (p : ascii -> bool) (s : jsstring) :
  Forall (fun c => p c = true) s -> drop_while p s = [].
Proof.
  induction 1 as [|c s Hc _ IH]; simpl; [reflexivity | now rewrite Hc].
Qed.

Lemma trim_blank (s : jsstring) :
  Forall (fun c => is_space c = true) s -> trim s = [].
Proof.
  intros H. unfold trim. now rewrite (drop_while_all _ _ H).
Qed.

(** ** The parser adapter *)


(** C6.  On an input made of whitespace only (the empty string included)
    [parseMarkdown] returns the fixed placeholder paragraph, which is not the
    empty string, whatever the options and the environment, in both copies. *)
Theorem blank_input_yields_placeholder
  (env : Env) (markdown : jsstring) (options : option MarkdownOptions) :
  Forall (fun c => is_space c = true) markdown ->
  Part004.parseMarkdown env markdown options = placeholder
  /\ Part005.parseMarkdown env markdown options = placeholder
  /\ placeholder <> [].
Proof.
  intros H. unfold Part004.parseMarkdown, Part005.parseMarkdown.
  rewrite (trim_blank _ H). simpl. repeat split. discriminate.
Qed.

Lemma blank_input_witness :
  Part004.parseMarkdown browser_env "   " (Some sanitize_only) = placeholder
  /\ Part005.parseMarkdown browser_env "   " (Some sanitize_only) = placeholder
  /\ placeholder <> [].
Proof.
  apply (blank_input_yields_placeholder browser_env "   " (Some sanitize_only)).
  repeat constructor.
Defined.

Lemma empty_input_yields_placeholder (env : Env) (options : option MarkdownOptions) :
  Part004.parseMarkdown env [] options = placeholder
  /\ Part005.parseMarkdown env [] options = placeholder.
Proof. split; reflexivity. Qed.

Lemma configureMarked_without_sanitize (env : Env) (options : option MarkdownOptions) :
  Part004.configureMarked env (Part004.effective_options env (without_sanitize options))
  = Part004.configureMarked env (Part004.effective_options env options).
Proof. destruct options as [o|]; reflexivity. Qed.


(** C2, refuted as stated: on the server the call that asks for
    sanitization gets the HTML of the parser back, script element included,
    as the same plain string a call with [sanitize: false] gets. *)
Lemma unsanitized_html_returned_as_is :
  sanitize_requested (Some sanitize_only) = true
  /\ marked_parse server_env
       (Part004.configureMarked server_env
          (Part004.effective_options server_env (Some sanitize_only)))
       script_block = Ok script_block
  /\ Part004.parseMarkdown server_env script_block (Some sanitize_only) = script_block
  /\ Part004.parseMarkdown server_env script_block (Some sanitize_only)
     = Part004.parseMarkdown server_env script_block (without_sanitize (Some sanitize_only)).
Proof. repeat split; vm_compute; reflexivity. Qed.

(** C2, amended.  With no global [window], [parseMarkdown] skips the
    sanitizer even when sanitization is asked for: the result is the one of
    the same call with [sanitize] set to [false], and when the parser
    returns [html] the result is [html] itself, a plain string with nothing
    that tells the caller of the skipped step. *)
Theorem no_window_skips_sanitizer
  (env : Env) (markdown : jsstring) (options : option MarkdownOptions) :
  window env = None ->
  Part004.parseMarkdown env markdown options
  = Part004.parseMarkdown env markdown (without_sanitize options)
  /\ (forall html,
        truthy (trim markdown) = true ->
        marked_parse env
          (Part004.configureMarked env (Part004.effective_options env options))
          markdown = Ok html ->
        Part004.parseMarkdown env markdown options = html).
Proof.
  intros Hw. unfold Part004.parseMarkdown, Part004.isBrowser.
  rewrite configureMarked_without_sanitize, Hw, !andb_false_r. split.
  - destruct (truthy (trim markdown)); simpl; [|reflexivity].
    destruct (marked_parse env _ markdown); [|reflexivity].
    destruct (DOMPurify env); reflexivity.
  - intros html Ht Hm. rewrite Ht, Hm. simpl. destruct (DOMPurify env); reflexivity.
Qed.

Lemma no_window_witness :
  Part004.parseMarkdown server_env script_block (Some sanitize_only)
  = Part004.parseMarkdown server_env script_block (without_sanitize (Some sanitize_only))
  /\ (forall html,
        truthy (trim script_block) = true ->
        marked_parse server_env
          (Part004.configureMarked server_env
             (Part004.effective_options server_env (Some sanitize_only)))
          script_block = Ok html ->
        Part004.parseMarkdown server_env script_block (Some sanitize_only) = html).
Proof.
  apply (no_window_skips_sanitizer server_env script_block (Some sanitize_only)).
  reflexivity.
Defined.

(** The copy of [part_005] has no such guard: whenever sanitization is asked
    for, its output is the placeholder, the error paragraph or what the
    sanitizer returned. *)
Lemma earlier_output_is_sanitizer_output
  (env : Env) (purify : SanitizeConfig -> jsstring -> Result jsstring)
  (markdown : jsstring) (options : option MarkdownOptions) :
  DOMPurify env = Some purify ->
  sanitize_requested options = true ->
  let out := Part005.parseMarkdown env markdown options in
  out = placeholder
  \/ (exists e, out = error_markup e)
  \/ (exists html,
        marked_parse env
          (Part005.configureMarked env (Part005.effective_options env options))
          markdown = Ok html
        /\ purify sanitize_config html = Ok out).
Proof.
  intros Hp Hs out. subst out. unfold Part005.parseMarkdown. rewrite Hp, Hs.
  destruct (truthy (trim markdown)); simpl; [|now left].
  destruct (marked_parse env _ markdown) as [html|e] eqn:Hm.
  - destruct (purify sanitize_config html) as [clean|e] eqn:Hc.
    + right; right. exists html. split; [reflexivity | exact Hc].
    + right; left. exists e. reflexivity.
  - right; left. exists e. reflexivity.
Qed.

(** C5, the code at the failing input.  [parseMarkdown] hands
    [configureMarked] the built-in highlighter whatever the caller passed:
    the result does not depend on the [highlight] option, in both copies,
    and for a fenced block the output carries the markup of the built-in
    highlighter, not the one of the caller, which the code rule itself would
    have used. *)
Theorem highlight_option_is_dropped :
  (forall env markdown o h,
     Part004.parseMarkdown env markdown (Some (with_highlight h o))
     = Part004.parseMarkdown env markdown (Some o))
  /\ (forall env markdown o h,
        Part005.parseMarkdown env markdown (Some (with_highlight h o))
        = Part005.parseMarkdown env markdown (Some o))
  /\ Part004.parseMarkdown browser_env fenced_js
       (Some (preview_options (Some custom_highlight)))
     = code_block "js" (Part004.highlightCode sample_prism "let x" "js")
  /\ includes
       (Part004.parseMarkdown browser_env fenced_js
          (Some (preview_options (Some custom_highlight)))) "CUSTOM" = false
  /\ Part004.renderer_code browser_env (preview_options (Some custom_highlight))
       "let x" (Some ("js" : jsstring))
     = code_block "js" "CUSTOM".
Proof.
  split; [|split; [|split; [|split]]].
  - intros env markdown [b g s h0] h. reflexivity.
  - intros env markdown [b g s h0] h. reflexivity.
  - vm_compute; reflexivity.
  - vm_compute; reflexivity.
  - vm_compute; reflexivity.
Qed.

(** ** The matcher on a single character *)

Lemma run_chr (a : ascii) (re : regex) (prev : option ascii) (s : jsstring)
  (n : nat) (caps : list jsstring) :
  run (chr a :: re) prev s n caps
  = match s with
    | c :: s' => if is_char a c then run re (Some c) s' (n + 1) caps else None
    | [] => None
    end.
Proof.
  unfold chr. simpl. destruct s as [|c s']; simpl; [reflexivity|].
  destruct (is_char a c); simpl; [|reflexivity].
  destruct s' as [|d s'']; simpl.
  - now destruct (run re (Some c) [] (n + 1) caps).
  - rewrite andb_false_r. now destruct (run re (Some c) (d :: s'') (n + 1) caps).
Qed.

Lemma replace_chr_from (a : ascii) (t : jsstring) (s : jsstring) (prev : option ascii) :
  replace_from [chr a] [Lit t] prev 0 s = flat_map (replace_char a t) s.
Proof.
  revert prev. induction s as [|c s IH]; intros prev.
  - cbn [replace_from]. rewrite run_chr. reflexivity.
  - cbn [replace_from]. rewrite run_chr. unfold replace_char at 1. cbn [flat_map run].
    destruct (is_char a c); simpl; rewrite IH.
    + rewrite app_nil_r. reflexivity.
    + reflexivity.
Qed.

Lemma replace_chr (a : ascii) (t : jsstring) (s : jsstring) :
  replace [chr a] [Lit t] s = flat_map (replace_char a t) s.
Proof. apply replace_chr_from. Qed.

Lemma replace_chr_Forall (P Q : ascii -> Prop) (a : ascii) (t s : jsstring) :
  Forall P t ->
  (forall c, Q c -> is_char a c = false -> P c) ->
  Forall Q s ->
  Forall P (replace [chr a] [Lit t] s).
Proof.
  intros Ht Hstep Hs. rewrite replace_chr.
  induction Hs as [|c s Hc _ IH]; simpl; [constructor|].
  apply Forall_app. split; [|exact IH].
  unfold replace_char. destruct (is_char a c) eqn:E; [exact Ht|].
  constructor; [now apply Hstep | constructor].
Qed.

(** ** The syntax highlighter *)

Lemma escapeHtml_leaves_no_markup (code : jsstring) :
  Forall (fun c => is_markup_char c = false) (escapeHtml code).
Proof.
  unfold escapeHtml.
  apply replace_chr_Forall
    with (Q := fun c => (is_char "<" c || is_char ">" c || is_char "034" c) = false).
  { repeat constructor. }
  { intros c Hc E. unfold is_markup_char. now rewrite Hc, E. }
  apply replace_chr_Forall
    with (Q := fun c => (is_char "<" c || is_char ">" c) = false).
  { repeat constructor. }
  { intros c Hc E. now rewrite Hc, E. }
  apply replace_chr_Forall with (Q := fun c => is_char "<" c = false).
  { repeat constructor. }
  { intros c Hc E. now rewrite Hc, E. }
  apply replace_chr_Forall with (Q := fun _ => True).
  { repeat constructor. }
  { intros c _ E. exact E. }
  apply Forall_forall. intros; exact I.
Qed.

(** The copy of [part_004] does what the specification asks of the
    highlighter: for a language that is not registered it returns the
    escaped code, which holds none of the four markup characters. *)
Lemma fixed_highlightCode_escapes (P : Prism) (code lang : jsstring) :
  prism_languages P (normalizedLang lang) = None ->
  Part004.highlightCode P code lang = escapeHtml code
  /\ Forall (fun c => is_markup_char c = false) (Part004.highlightCode P code lang).
Proof.
  intros H. unfold Part004.highlightCode. rewrite H.
  split; [reflexivity | apply escapeHtml_leaves_no_markup].
Qed.

Lemma earlier_highlightCode_returns_code (P : Prism) (code lang : jsstring) :
  prism_languages P (normalizedLang lang) = None ->
  Part005.highlightCode P code lang = code.
Proof. intros H. unfold Part005.highlightCode. now rewrite H. Qed.

(** C3, the code at the failing input.  For the tag [brainfuck-v2], which no
    grammar answers to, the [highlightCode] of [part_005] returns the code
    as it came, angle brackets included, where the one of [part_004] returns
    the escaped code. *)
Theorem highlightCode_unknown_language_not_escaped :
  prism_languages sample_prism (normalizedLang "brainfuck-v2") = None
  /\ Part005.highlightCode sample_prism "<b>" "brainfuck-v2" = "<b>"
  /\ Part004.highlightCode sample_prism "<b>" "brainfuck-v2" = "&lt;b&gt;"
  /\ escapeHtml "<b>" = "&lt;b&gt;".
Proof. repeat split; vm_compute; reflexivity. Qed.

(** ** The link rule *)

(** C7, refuted as stated: a relative reference that happens to begin with
    the letters [http] gets both attributes. *)
Lemma relative_link_gets_target_blank :
  is_relative_reference "httpdocs/page.html" = true
  /\ Part004.renderer_link browser_env "httpdocs/page.html" None "docs"
     = "<a href=" ++ quoted "httpdocs/page.html"
         ++ " rel=" ++ quoted "noopener noreferrer"
         ++ " target=" ++ quoted "_blank"
         ++ " class=" ++ quoted "link" ++ ">docs</a>".
Proof. split; vm_compute; reflexivity. Qed.

(** C7, amended.  The anchor carries [rel] and [target] exactly when [href]
    begins with the letters [http], a non-empty current origin is at hand
    and [href] does not begin with that origin; otherwise it carries
    neither.  The [title] attribute is there exactly when the title is a
    non-empty string. *)
Theorem link_attributes_follow_prefix_tests
  (env : Env) (href : jsstring) (title : option jsstring) (text : jsstring) :
  Part004.renderer_link env href title text
  = "<a href=" ++ quoted href ++ titleAttr title
      ++ (if Part004.isExternal env href
          then " rel=" ++ quoted "noopener noreferrer" ++ " target=" ++ quoted "_blank"
          else [])
      ++ " class=" ++ quoted "link" ++ ">" ++ text ++ "</a>"
  /\ (Part004.isExternal env href = true <->
      prefix "http" href
      /\ Part004.getCurrentOrigin env <> []
      /\ ~ prefix (Part004.getCurrentOrigin env) href)
  /\ (titleAttr title = [] <-> title = None \/ title = Some [])
  /\ (forall t, title = Some t -> t <> [] -> titleAttr title = " title=" ++ quoted t).
Proof.
  split; [|split; [|split]].
  - unfold Part004.renderer_link, anchor, relAttr, targetAttr.
    destruct (Part004.isExternal env href); [|reflexivity].
    now rewrite <- !app_assoc.
  - unfold Part004.isExternal.
    rewrite !andb_true_iff, negb_true_iff, startsWith_prefix.
    destruct (Part004.getCurrentOrigin env) as [|c o] eqn:Ho.
    + simpl. split; [intros [[_ H] _]; discriminate | intros [_ [H _]]; now elim H].
    + simpl truthy. split.
      * intros [[H1 _] H3]. repeat split; [exact H1 | discriminate |].
        intros Hp. apply startsWith_prefix in Hp. congruence.
      * intros [H1 [_ H3]]. repeat split; [exact H1|].
        destruct (startsWith href (c :: o)) eqn:E; [|reflexivity].
        apply startsWith_prefix in E. contradiction.
  - destruct title as [[|c t]|]; simpl.
    + split; auto.
    + split; [discriminate | intros [H|H]; discriminate].
    + split; auto.
  - intros t -> Ht. destruct t; [now elim Ht | reflexivity].
Qed.

Lemma link_attributes_witness :
  Part004.isExternal browser_env "https://other.org/" = true <->
  prefix "http" "https://other.org/"
  /\ Part004.getCurrentOrigin browser_env <> []
  /\ ~ prefix (Part004.getCurrentOrigin browser_env) "https://other.org/".
Proof.
  exact (proj1 (proj2 (link_attributes_follow_prefix_tests browser_env
                         "https://other.org/" None "docs"))).
Defined.

(** With a [window], the link rule of [part_005] gives the same anchor. *)
Lemma link_rules_agree (env : Env) (w : Window) (href : jsstring)
  (title : option jsstring) (text : jsstring) :
  window env = Some w ->
  Part005.renderer_link env href title text
  = Ok (Part004.renderer_link env href title text).
Proof.
  intros Hw. unfold Part005.renderer_link, Part005.isExternal, Part004.renderer_link,
    Part004.isExternal, Part004.getCurrentOrigin. rewrite Hw.
  destruct (startsWith href "http"); [|reflexivity].
  destruct (location w) as [l|]; [|reflexivity].
  destruct (origin l) as [|c o]; reflexivity.
Qed.

(** ** Word count on the fenced block *)

(** The scenario of the specification: five words once the markers are
    stripped.  A link keeps its text; an image is reached by the link
    pattern first and keeps its alternative text behind the [!]. *)
Lemma countWords_samples :
  countWords "**bold** and *italic* and `code`" = 5
  /\ plainText "# Title" = "Title"
  /\ plainText "see [the docs](http://x.org/a) now" = "see the docs now"
  /\ plainText "![alt text](x.png)" = "!alt text"
  /\ countWords [] = 0.
Proof. repeat split; vm_compute; reflexivity. Qed.

(** C4, the code at the failing input.  The replacement for inline code runs
    before the one for fenced blocks and turns each fence into a single
    backtick, so the pattern for fenced blocks finds nothing left to
    remove: the two words of the block and the two backticks are counted.
    On the text as it came, that pattern alone removes the whole block. *)
Theorem countWords_counts_fenced_block :
  countWords fenced_sample = 4
  /\ plainText fenced_sample = "` foo bar `"
  /\ replace re_inline_code [Grp 1] fenced_sample = "`" ++ nl ++ "foo bar" ++ nl ++ "`"
  /\ replace re_code_block [] fenced_sample = [].
Proof. repeat split; vm_compute; reflexivity. Qed.

(** ** Rounding to the nearest double *)

Lemma pow2_pos (e : Z) : (0 < 2 ^ e)%Q.
Proof. apply Qpower_0_lt. reflexivity. Qed.

Lemma pow2_add (a b : Z) : (2 ^ (a + b) == 2 ^ a * 2 ^ b)%Q.
Proof. apply Qpower_plus. discriminate. Qed.

Lemma pow2_le (a b : Z) : (a <= b)%Z -> (2 ^ a <= 2 ^ b)%Q.
Proof. intros H. apply Qpower_le_compat_l; [exact H | discriminate]. Qed.

Lemma pow2_succ (a : Z) : (2 ^ (a + 1) == 2 * 2 ^ a)%Q.
Proof. rewrite pow2_add. change (2 ^ 1)%Q with 2%Q. ring. Qed.

Lemma pow2_Z (a : Z) : (0 <= a)%Z -> (inject_Z (2 ^ a) == 2 ^ a)%Q.
Proof. intros H. apply (Zpower_Qpower 2 a H). Qed.

Lemma log2_bounds (a : Z) :
  (0 < a)%Z ->
  (2 ^ Z.log2 a <= inject_Z a)%Q /\ (inject_Z a < 2 * 2 ^ Z.log2 a)%Q.
Proof.
  intros H. destruct (Z.log2_spec a H) as [H1 H2].
  pose proof (Z.log2_nonneg a) as H0.
  rewrite <- pow2_succ, <- !pow2_Z by lia.
  rewrite <- Zle_Qle, <- Zlt_Qlt. split; [exact H1 | ].
  replace (Z.log2 a + 1)%Z with (Z.succ (Z.log2 a)) by lia. exact H2.
Qed.

(** [ilog2 q] is the exponent of the power of two at or below [q]. *)
Lemma ilog2_spec (q : Q) :
  (0 < q)%Q -> (2 ^ ilog2 q <= q)%Q /\ (q < 2 * 2 ^ ilog2 q)%Q.
Proof.
  intros Hq. unfold ilog2.
  set (la := Z.log2 (Qnum q)). set (lb := Z.log2 (Zpos (Qden q))).
  assert (Ha : (0 < Qnum q)%Z).
  { unfold Qlt in Hq. simpl in Hq. lia. }
  destruct (log2_bounds _ Ha) as [A1 A2]. fold la in A1, A2.
  destruct (log2_bounds (Zpos (Qden q)) eq_refl) as [B1 B2]. fold lb in B1, B2.
  assert (E : (q * inject_Z (Zpos (Qden q)) == inject_Z (Qnum q))%Q).
  { destruct q as [a b]. unfold Qeq, Qmult, inject_Z. simpl. lia. }
  assert (Ex : (2 ^ la == 2 ^ (la - lb) * 2 ^ lb)%Q).
  { rewrite <- pow2_add. replace (la - lb + lb)%Z with la by lia. reflexivity. }
  assert (Ex1 : (2 ^ (la - lb) == 2 * 2 ^ (la - lb - 1))%Q).
  { rewrite <- pow2_succ. replace (la - lb - 1 + 1)%Z with (la - lb)%Z by lia. reflexivity. }
  pose proof (pow2_pos (la - lb)) as P1. pose proof (pow2_pos lb) as P2.
  pose proof (pow2_pos (la - lb - 1)) as P3.
  assert (K : (q < 2 * 2 ^ (la - lb))%Q /\ (2 ^ (la - lb - 1) <= q)%Q).
  { set (A := inject_Z (Qnum q)) in *. set (B := inject_Z (Zpos (Qden q))) in *.
    set (X := (2 ^ (la - lb))%Q) in *. set (Y := (2 ^ lb)%Q) in *.
    set (PA := (2 ^ la)%Q) in *. set (X1 := (2 ^ (la - lb - 1))%Q) in *.
    clearbody A B X Y PA X1. split.
    - apply Qmult_lt_r with (z := B); [lra|].
      rewrite E. apply Qlt_le_trans with (y := (2 * PA)%Q); [exact A2|].
      rewrite Ex. nra.
    - apply Qmult_le_r with (z := B); [lra|].
      rewrite E. apply Qle_trans with (y := PA); [|exact A1].
      rewrite Ex, Ex1. nra. }
  destruct K as [K1 K2].
  destruct (Qle_bool (2 ^ (la - lb)) q) eqn:T.
  - apply Qle_bool_iff in T. split; [exact T | exact K1].
  - assert (T' : (q < 2 ^ (la - lb))%Q).
    { apply Qnot_le_lt. intros H. apply Qle_bool_iff in H. congruence. }
    split; [exact K2 | rewrite <- Ex1; exact T'].
Qed.

Lemma rhe_cases (q : Q) :
  (round_half_even q = Qfloor q /\ (q - inject_Z (Qfloor q) <= 1 # 2)%Q)
  \/ (round_half_even q = (Qfloor q + 1)%Z /\ (1 # 2 <= q - inject_Z (Qfloor q))%Q).
Proof.
  unfold round_half_even.
  destruct (q - inject_Z (Qfloor q) ?= 1 # 2)%Q eqn:C.
  - apply Qeq_alt in C. destruct (Z.even (Qfloor q)).
    + left. split; [reflexivity | rewrite C; apply Qle_refl].
    + right. split; [reflexivity | rewrite C; apply Qle_refl].
  - apply Qlt_alt in C. left. split; [reflexivity | apply Qlt_le_weak, C].
  - apply Qgt_alt in C. right. split; [reflexivity | apply Qlt_le_weak, C].
Qed.

Lemma floor_bounds (q : Q) :
  (inject_Z (Qfloor q) <= q)%Q /\ (q < inject_Z (Qfloor q) + 1)%Q.
Proof.
  split; [apply Qfloor_le|].
  pose proof (Qlt_floor q) as H. rewrite inject_Z_plus in H. exact H.
Qed.

(** Rounding to an integer moves a number by a half at most, keeps the
    integers in place and keeps the order. *)
Lemma rhe_bounds (q : Q) :
  (q - (1 # 2) <= inject_Z (round_half_even q))%Q
  /\ (inject_Z (round_half_even q) <= q + (1 # 2))%Q.
Proof.
  destruct (floor_bounds q) as [F1 F2].
  destruct (rhe_cases q) as [[-> H] | [-> H]].
  - split; lra.
  - rewrite inject_Z_plus. change (inject_Z 1) with 1%Q. split; lra.
Qed.

Lemma floor_ge (N : Z) (q : Q) : (inject_Z N <= q)%Q -> (N <= Qfloor q)%Z.
Proof.
  intros H. rewrite <- (Qfloor_Z N). now apply Qfloor_resp_le.
Qed.

Lemma floor_lt (N : Z) (q : Q) : (q < inject_Z N)%Q -> (Qfloor q < N)%Z.
Proof.
  intros H. rewrite Zlt_Qlt. eapply Qle_lt_trans; [apply Qfloor_le | exact H].
Qed.

Lemma rhe_ge (N : Z) (q : Q) : (inject_Z N <= q)%Q -> (N <= round_half_even q)%Z.
Proof.
  intros H. apply floor_ge in H. destruct (rhe_cases q) as [[-> _] | [-> _]]; lia.
Qed.

Lemma rhe_le (N : Z) (q : Q) : (q <= inject_Z N)%Q -> (round_half_even q <= N)%Z.
Proof.
  intros H. destruct (floor_bounds q) as [F1 F2].
  destruct (rhe_cases q) as [[-> _] | [-> Hh]].
  - rewrite Zle_Qle. lra.
  - assert (Qfloor q < N)%Z; [|lia]. rewrite Zlt_Qlt. lra.
Qed.

Lemma rhe_Z (N : Z) : round_half_even (inject_Z N) = N.
Proof.
  apply Z.le_antisymm; [apply rhe_le | apply rhe_ge]; apply Qle_refl.
Qed.

Lemma rhe_monotone (q1 q2 : Q) :
  (q1 <= q2)%Q -> (round_half_even q1 <= round_half_even q2)%Z.
Proof.
  intros H.
  pose proof (Qfloor_resp_le _ _ H) as Hf.
  destruct (Z.eq_dec (Qfloor q1) (Qfloor q2)) as [E|NE].
  - unfold round_half_even. rewrite E.
    destruct (q1 - inject_Z (Qfloor q2) ?= 1 # 2)%Q eqn:C1;
      [apply Qeq_alt in C1 | apply Qlt_alt in C1 | apply Qgt_alt in C1];
      (destruct (q2 - inject_Z (Qfloor q2) ?= 1 # 2)%Q eqn:C2;
       [apply Qeq_alt in C2 | apply Qlt_alt in C2 | apply Qgt_alt in C2]);
      try (destruct (Z.even (Qfloor q2))); try lia; exfalso; lra.
  - destruct (rhe_cases q1) as [[-> _] | [-> _]];
      destruct (rhe_cases q2) as [[-> _] | [-> _]]; lia.
Qed.

Lemma rhe_comp (q1 q2 : Q) : (q1 == q2)%Q -> round_half_even q1 = round_half_even q2.
Proof.
  intros H. apply Z.le_antisymm; apply rhe_monotone; rewrite H; apply Qle_refl.
Qed.

Lemma pow2_lt_inv (a b : Z) : (2 ^ a < 2 ^ b)%Q -> (a < b)%Z.
Proof. intros H. apply (Qpower_lt_compat_l_inv 2); [exact H | reflexivity]. Qed.

Lemma pow2_opp (e : Z) : (2 ^ e * 2 ^ (- e) == 1)%Q.
Proof. rewrite <- pow2_add. replace (e + - e)%Z with 0%Z by lia. reflexivity. Qed.

Lemma scaled_back (q : Q) (e : Z) : (q / 2 ^ e * 2 ^ e == q)%Q.
Proof. field. pose proof (pow2_pos e). lra. Qed.

Lemma ulp_exponent_facts (q : Q) :
  (0 < q)%Q ->
  (-1074 <= ulp_exponent q)%Z
  /\ (q < 2 ^ (ulp_exponent q + 53))%Q
  /\ (ulp_exponent q = (-1074)%Z \/ (2 ^ (ulp_exponent q + 52) <= q)%Q).
Proof.
  intros Hq. destruct (ilog2_spec q Hq) as [L1 L2]. rewrite <- pow2_succ in L2.
  unfold ulp_exponent. split; [lia | split].
  - eapply Qlt_le_trans; [exact L2 | apply pow2_le; lia].
  - destruct (Z.max_spec (ilog2 q - 52) (-1074)) as [[_ ->] | [_ ->]].
    + now left.
    + right. replace (ilog2 q - 52 + 52)%Z with (ilog2 q) by lia. exact L1.
Qed.

Lemma ilog2_monotone (q1 q2 : Q) :
  (0 < q1)%Q -> (q1 <= q2)%Q -> (ilog2 q1 <= ilog2 q2)%Z.
Proof.
  intros H1 H.
  destruct (ilog2_spec q1 H1) as [A1 _].
  destruct (ilog2_spec q2) as [_ B2]; [lra|]. rewrite <- pow2_succ in B2.
  assert (ilog2 q1 < ilog2 q2 + 1)%Z; [|lia].
  apply pow2_lt_inv. lra.
Qed.

Lemma ulp_exponent_monotone (q1 q2 : Q) :
  (0 < q1)%Q -> (q1 <= q2)%Q -> (ulp_exponent q1 <= ulp_exponent q2)%Z.
Proof.
  intros H1 H. pose proof (ilog2_monotone q1 q2 H1 H). unfold ulp_exponent. lia.
Qed.

(** Rounding to a double moves a number by half a unit of the last digit
    at most. *)
Lemma nearest_value_error (q : Q) :
  (q - 2 ^ ulp_exponent q * (1 # 2) <= nearest_value q)%Q
  /\ (nearest_value q <= q + 2 ^ ulp_exponent q * (1 # 2))%Q.
Proof.
  unfold nearest_value. set (e := ulp_exponent q).
  pose proof (pow2_pos e) as P. pose proof (scaled_back q e) as S.
  destruct (rhe_bounds (q / 2 ^ e)) as [B1 B2].
  set (m := inject_Z (round_half_even (q / 2 ^ e))) in *.
  set (s := (q / 2 ^ e)%Q) in *. set (u := (2 ^ e)%Q) in *.
  clearbody m s u. split; nra.
Qed.

(** Rounding to a double keeps the order, also across the powers of two
    where the unit of the last digit changes. *)
Lemma nearest_value_monotone (q1 q2 : Q) :
  (0 < q1)%Q -> (q1 <= q2)%Q -> (nearest_value q1 <= nearest_value q2)%Q.
Proof.
  intros H1 H. assert (H2 : (0 < q2)%Q) by lra.
  pose proof (ulp_exponent_monotone q1 q2 H1 H) as He.
  destruct (ulp_exponent_facts q1 H1) as (A1 & A2 & A3).
  destruct (ulp_exponent_facts q2 H2) as (B1 & B2 & B3).
  unfold nearest_value.
  set (e1 := ulp_exponent q1) in *. set (e2 := ulp_exponent q2) in *.
  pose proof (pow2_pos e1) as P1. pose proof (pow2_pos e2) as P2.
  destruct (Z.eq_dec e1 e2) as [E|NE].
  - rewrite <- E. apply Qmult_le_compat_r; [|lra].
    rewrite <- Zle_Qle. apply rhe_monotone.
    apply Qmult_le_r with (z := (2 ^ e1)%Q); [exact P1|].
    rewrite scaled_back. rewrite E at 2. rewrite E. rewrite scaled_back. exact H.
  - apply Qle_trans with (y := (2 ^ (e1 + 53))%Q).
    + rewrite Z.add_comm, pow2_add. apply Qmult_le_compat_r; [|lra].
      rewrite <- (pow2_Z 53) by lia. rewrite <- Zle_Qle. apply rhe_le.
      rewrite (pow2_Z 53) by lia.
      apply Qmult_le_r with (z := (2 ^ e1)%Q); [exact P1|].
      rewrite scaled_back, <- pow2_add, Z.add_comm. lra.
    + apply Qle_trans with (y := (2 ^ (e2 + 52))%Q); [apply pow2_le; lia|].
      destruct B3 as [B3|B3]; [lia|].
      rewrite Z.add_comm, pow2_add. apply Qmult_le_compat_r; [|lra].
      rewrite <- (pow2_Z 52) by lia. rewrite <- Zle_Qle. apply rhe_ge.
      rewrite (pow2_Z 52) by lia.
      apply Qmult_le_r with (z := (2 ^ e2)%Q); [exact P2|].
      rewrite scaled_back, <- pow2_add, Z.add_comm. exact B3.
Qed.

(** The whole numbers below 2^53 are doubles. *)
Lemma nearest_value_exact (k : Z) :
  (0 < k < 2 ^ 53)%Z -> (nearest_value (inject_Z k) == inject_Z k)%Q.
Proof.
  intros Hk.
  assert (Hq : (0 < inject_Z k)%Q) by (change 0%Q with (inject_Z 0); rewrite <- Zlt_Qlt; lia).
  destruct (ilog2_spec _ Hq) as [L1 _].
  assert (Hl : (ilog2 (inject_Z k) < 53)%Z).
  { apply pow2_lt_inv. eapply Qle_lt_trans; [exact L1|].
    rewrite <- pow2_Z by lia. rewrite <- Zlt_Qlt. lia. }
  unfold nearest_value. set (e := ulp_exponent (inject_Z k)).
  assert (He : (e <= 0)%Z) by (unfold e, ulp_exponent; lia).
  assert (Hs : (inject_Z k / 2 ^ e == inject_Z (k * 2 ^ (- e)))%Q).
  { rewrite inject_Z_mult, pow2_Z by lia.
    unfold Qdiv. rewrite Qpower_opp. reflexivity. }
  rewrite (rhe_comp _ _ Hs), rhe_Z.
  rewrite inject_Z_mult, pow2_Z by lia.
  pose proof (pow2_opp e) as O. rewrite <- Qmult_assoc.
  rewrite (Qmult_comm (2 ^ (- e))), O. ring.
Qed.

Lemma ilog2_comp (q1 q2 : Q) : (0 < q1)%Q -> (q1 == q2)%Q -> ilog2 q1 = ilog2 q2.
Proof.
  intros H1 E. assert (H2 : (0 < q2)%Q) by lra.
  apply Z.le_antisymm; apply ilog2_monotone; lra.
Qed.

Lemma nearest_value_comp (q1 q2 : Q) :
  (0 < q1)%Q -> (q1 == q2)%Q -> (nearest_value q1 == nearest_value q2)%Q.
Proof.
  intros H1 E. assert (H2 : (0 < q2)%Q) by lra.
  apply Qle_antisym; apply nearest_value_monotone; lra.
Qed.

Lemma ceiling_unique (x : Q) (c : Z) :
  (inject_Z (c - 1) < x)%Q -> (x <= inject_Z c)%Q -> Qceiling x = c.
Proof.
  intros H1 H2.
  assert (Qceiling x <= c)%Z.
  { rewrite <- (Qceiling_Z c). now apply Qceiling_resp_le. }
  assert (c - 1 < Qceiling x)%Z.
  { rewrite Zlt_Qlt. eapply Qlt_le_trans; [exact H1 | apply Qle_ceiling]. }
  lia.
Qed.

Lemma nearest_finite (q : Q) :
  (nearest_value q < 2 ^ 1024)%Q -> nearest q = Finite (Qred (nearest_value q)).
Proof.
  intros H. unfold nearest.
  destruct (Qle_bool (2 ^ 1024) (nearest_value q)) eqn:E; [|reflexivity].
  apply Qle_bool_iff in E. lra.
Qed.

Lemma round_positive (q : Q) : (0 < q)%Q -> round_to_double q = nearest q.
Proof.
  intros H. unfold round_to_double. apply Qgt_alt in H. now rewrite H.
Qed.

Lemma safe_below_overflow : (inject_Z (2 ^ 53) < 2 ^ 1024)%Q.
Proof. rewrite pow2_Z by lia. apply Qpower_lt_compat_l; [lia | reflexivity]. Qed.

Lemma nearest_value_safe (q : Q) (k : Z) :
  (0 < q)%Q -> (q <= inject_Z k)%Q -> (k < 2 ^ 53)%Z ->
  (nearest_value q <= inject_Z k)%Q.
Proof.
  intros Hq Hk Hs.
  assert (0 < k)%Z by (rewrite Zlt_Qlt; change (inject_Z 0) with 0%Q; lra).
  rewrite <- (nearest_value_exact k) by lia.
  now apply nearest_value_monotone.
Qed.

(** The error of the rounding is below one part in [p] of the quotient of
    two whole numbers below 2^53. *)
Lemma half_ulp_small (n p : Z) :
  (0 < n < 2 ^ 53)%Z -> (0 < p < 2 ^ 53)%Z ->
  (2 ^ ulp_exponent (inject_Z n / inject_Z p) * (1 # 2) * inject_Z p < 1)%Q.
Proof.
  intros Hn Hp.
  assert (HP : (0 < inject_Z p)%Q) by (change 0%Q with (inject_Z 0); rewrite <- Zlt_Qlt; lia).
  assert (HN : (0 < inject_Z n)%Q) by (change 0%Q with (inject_Z 0); rewrite <- Zlt_Qlt; lia).
  assert (HP' : (inject_Z p < 2 ^ 53)%Q).
  { rewrite <- (pow2_Z 53) by lia. rewrite <- Zlt_Qlt. lia. }
  assert (HN' : (inject_Z n < 2 ^ 53)%Q).
  { rewrite <- (pow2_Z 53) by lia. rewrite <- Zlt_Qlt. lia. }
  set (q := (inject_Z n / inject_Z p)%Q).
  assert (Eq : (q * inject_Z p == inject_Z n)%Q) by (unfold q; field; lra).
  assert (Hq : (0 < q)%Q).
  { apply Qmult_lt_r with (z := inject_Z p); [exact HP|]. rewrite Eq. lra. }
  destruct (ulp_exponent_facts q Hq) as (_ & _ & [E | E]).
  - rewrite E.
    assert (T : (2 ^ (-1074) * 2 ^ 53 < 2)%Q) by reflexivity.
    pose proof (pow2_pos (-1074)) as P.
    set (u := (2 ^ (-1074))%Q) in *. set (t := (2 ^ 53)%Q) in *. clearbody u t.
    nra.
  - rewrite pow2_add in E.
    assert (T : (2 ^ 52 * 2 == 2 ^ 53)%Q) by reflexivity.
    pose proof (pow2_pos (ulp_exponent q)) as P.
    set (u := (2 ^ ulp_exponent q)%Q) in *.
    set (t := (2 ^ 53)%Q) in *. set (t' := (2 ^ 52)%Q) in *.
    set (N := inject_Z n) in *. set (D := inject_Z p) in *.
    clearbody u t t' N D q.
    assert (u * t' * D <= N)%Q by (rewrite <- Eq; nra).
    assert (0 < t')%Q by nra.
    nra.
Qed.

Lemma ceiling_div_bounds (n p : Z) :
  (0 < p)%Z ->
  let c := ((n + p - 1) / p)%Z in
  ((c - 1) * p < n <= c * p)%Z.
Proof.
  intros Hp c. subst c.
  pose proof (Z.div_mod (n + p - 1) p) as D.
  pose proof (Z.mod_pos_bound (n + p - 1) p Hp) as B. nia.
Qed.

(** The quotient of two whole numbers below 2^53 rounds to a double with
    the ceiling of the exact quotient. *)
Lemma nearest_quotient_ceiling (n p : Z) :
  (0 < n < 2 ^ 53)%Z -> (0 < p < 2 ^ 53)%Z ->
  (nearest_value (inject_Z n / inject_Z p) < 2 ^ 1024)%Q
  /\ Qceiling (nearest_value (inject_Z n / inject_Z p)) = ((n + p - 1) / p)%Z.
Proof.
  intros Hn Hp.
  assert (HP : (0 < inject_Z p)%Q) by (change 0%Q with (inject_Z 0); rewrite <- Zlt_Qlt; lia).
  assert (HN : (0 < inject_Z n)%Q) by (change 0%Q with (inject_Z 0); rewrite <- Zlt_Qlt; lia).
  set (q := (inject_Z n / inject_Z p)%Q).
  assert (Eq : (q * inject_Z p == inject_Z n)%Q) by (unfold q; field; lra).
  assert (Hq : (0 < q)%Q).
  { apply Qmult_lt_r with (z := inject_Z p); [exact HP|]. rewrite Eq. lra. }
  assert (Hqn : (q <= inject_Z n)%Q).
  { assert (1 <= inject_Z p)%Q by (change 1%Q with (inject_Z 1); rewrite <- Zle_Qle; lia).
    nra. }
  split.
  - eapply Qle_lt_trans; [apply (nearest_value_safe q n Hq Hqn); lia|].
    eapply Qlt_trans; [|apply safe_below_overflow]. rewrite <- Zlt_Qlt. lia.
  - pose proof (ceiling_div_bounds n p (proj1 Hp)) as B. simpl in B.
    set (c := ((n + p - 1) / p)%Z) in *.
    destruct (Z.eq_dec n (c * p)) as [E|NE].
    + assert (Ec : (q == inject_Z c)%Q).
      { apply Qmult_inj_r with (z := inject_Z p); [lra|].
        rewrite Eq, E, inject_Z_mult. reflexivity. }
      rewrite (Qceiling_comp _ _ (nearest_value_comp _ _ Hq Ec)).
      rewrite (Qceiling_comp _ _ (nearest_value_exact c ltac:(nia))).
      apply Qceiling_Z.
    + pose proof (half_ulp_small n p Hn Hp) as Hd. fold q in Hd.
      destruct (nearest_value_error q) as [E1 E2].
      assert (B1 : (inject_Z (c - 1) * inject_Z p + 1 <= inject_Z n)%Q).
      { rewrite <- inject_Z_mult. change 1%Q with (inject_Z 1).
        rewrite <- inject_Z_plus, <- Zle_Qle. lia. }
      assert (B2 : (inject_Z n + 1 <= inject_Z c * inject_Z p)%Q).
      { rewrite <- inject_Z_mult. change 1%Q with (inject_Z 1).
        rewrite <- inject_Z_plus, <- Zle_Qle. lia. }
      assert (M1 : ((q - 2 ^ ulp_exponent q * (1 # 2)) * inject_Z p
                    <= nearest_value q * inject_Z p)%Q)
        by (apply Qmult_le_compat_r; lra).
      assert (M2 : (nearest_value q * inject_Z p
                    <= (q + 2 ^ ulp_exponent q * (1 # 2)) * inject_Z p)%Q)
        by (apply Qmult_le_compat_r; lra).
      apply ceiling_unique;
        [apply Qmult_lt_r with (z := inject_Z p); [exact HP|]
        |apply Qmult_le_r with (z := inject_Z p); [exact HP|]];
        set (v := nearest_value q) in *;
        set (d := (2 ^ ulp_exponent q * (1 # 2))%Q) in *;
        set (N := inject_Z n) in *; set (D := inject_Z p) in *;
        set (C := inject_Z c) in *; set (C1 := inject_Z (c - 1)) in *;
        clearbody v d N D C C1 q; lra.
Qed.

(** The model on known values: a third and a tenth, the ties at 2^53 + 1
    and 2^53 + 3, the largest double and the overflow threshold, the
    smallest subnormal number and the ties below it, and the special cases
    of the division. *)
Lemma number_samples :
  round_to_double (1 # 3) = Finite (6004799503160661 # 18014398509481984)
  /\ round_to_double (1 # 10) = Finite (3602879701896397 # 36028797018963968)
  /\ round_to_double (- (1 # 3)) = Finite (- (6004799503160661 # 18014398509481984))
  /\ round_to_double 9007199254740993 = Finite 9007199254740992
  /\ round_to_double 9007199254740995 = Finite 9007199254740996
  /\ round_to_double (2 ^ 1024 - 2 ^ 971) = Finite (Qred (2 ^ 1024 - 2 ^ 971))
  /\ round_to_double (2 ^ 1024 - 2 ^ 970) = Infinity false
  /\ round_to_double (2 ^ (-1074)) = Finite (Qred (2 ^ (-1074)))
  /\ round_to_double (2 ^ (-1075)) = Finite 0
  /\ round_to_double (- 2 ^ (-1075)) = NegativeZero
  /\ round_to_double (3 * 2 ^ (-1075)) = Finite (Qred (2 ^ (-1073)))
  /\ divide (Finite 1) (Finite 0) = Infinity false
  /\ divide (Finite (- (1))) (Finite 0) = Infinity true
  /\ divide (Finite 1) NegativeZero = Infinity true
  /\ divide (Finite 0) (Finite 0) = NaN
  /\ divide (Finite 1) (Infinity true) = NegativeZero
  /\ Math_ceil (divide (Finite (- (1))) (Finite 3)) = NegativeZero
  /\ estimateReadingTime (Finite 5) (Some (Finite 0)) = Infinity false
  /\ estimateReadingTime (Finite 0) (Some (Finite 0)) = NaN.
Proof. repeat split; vm_compute; reflexivity. Qed.

Lemma Qeq_bool_inject_Z (z : Z) : Qeq_bool (inject_Z z) 0 = (z =? 0)%Z.
Proof.
  unfold Qeq_bool, inject_Z. simpl. rewrite Z.mul_1_r.
  destruct z; reflexivity.
Qed.

Lemma ceiling_quotient (n p : Z) :
  (0 < p)%Z -> Qceiling (inject_Z n / inject_Z p) = ((n + p - 1) / p)%Z.
Proof.
  intros Hp. destruct p as [|p|p]; try lia.
  unfold Qceiling, Qfloor, Qdiv, Qinv, Qmult, Qopp, inject_Z.
  simpl. rewrite Z.mul_1_r.
  apply Z.div_unique with (r := (Zpos p - 1 - (- n) mod Zpos p)%Z).
  - left. pose proof (Z.mod_pos_bound (- n) (Zpos p)) as H. lia.
  - pose proof (Z.div_mod (- n) (Zpos p)) as H. lia.
Qed.

Lemma is_negative_inject_Z (z : Z) : is_negative (Finite (inject_Z z)) = (z <? 0)%Z.
Proof.
  unfold is_negative, Qcompare, inject_Z. simpl. rewrite Z.mul_1_r.
  unfold Z.ltb. destruct (z ?= 0)%Z; reflexivity.
Qed.

Lemma estimateReadingTime_safe (n p : Z) :
  (0 <= n < 2 ^ 53)%Z -> (0 < p < 2 ^ 53)%Z ->
  estimateReadingTime (Finite (inject_Z n)) (Some (Finite (inject_Z p)))
  = Finite (inject_Z ((n + p - 1) / p)).
Proof.
  intros Hn Hp. unfold estimateReadingTime, divide.
  rewrite !Qeq_bool_inject_Z.
  destruct (Z.eqb_spec p 0) as [|_]; [lia|].
  destruct (Z.eqb_spec n 0) as [->|Hn0].
  - rewrite is_negative_inject_Z.
    destruct (Z.ltb_spec p 0) as [|_]; [lia|]. simpl zero.
    rewrite Z.add_0_l, Z.div_small by lia. reflexivity.
  - assert (Hn' : (0 < n < 2 ^ 53)%Z) by lia.
    destruct (nearest_quotient_ceiling n p Hn' Hp) as [Hfin Hceil].
    assert (Hq : (0 < inject_Z n / inject_Z p)%Q).
    { apply Qlt_shift_div_l.
      - change 0%Q with (inject_Z 0); rewrite <- Zlt_Qlt; lia.
      - rewrite Qmult_0_l. change 0%Q with (inject_Z 0); rewrite <- Zlt_Qlt; lia. }
    rewrite (round_positive _ Hq), (nearest_finite _ Hfin).
    unfold Math_ceil.
    rewrite (Qceiling_comp _ _ (Qred_correct _)), Hceil.
    pose proof (ceiling_div_bounds n p (proj1 Hp)) as B. simpl in B.
    destruct (Z.eqb_spec ((n + p - 1) / p) 0) as [E|_]; [rewrite E in B; lia|].
    reflexivity.
Qed.

(** ** Reading time *)

(** C9, refuted as stated: the quotient is rounded to a double before its
    ceiling is taken.  For 18014398509481996 words (a double, as every
    multiple of four of that size is) at 3 words a minute, the exact
    quotient is 6004799503160665 and a third, with ceiling
    6004799503160666, and the function returns 6004799503160665.  At the
    rate 0.7, which is the double 3152519739159347 / 2^52, the exact
    quotient of 7 words lies just above 10, with ceiling 11, and the
    function returns 10. *)
Lemma estimateReadingTime_rounds_the_quotient :
  estimateReadingTime (Finite 18014398509481996) (Some (Finite 3))
  = Finite 6004799503160665
  /\ Qceiling (18014398509481996 / 3) = 6004799503160666%Z
  /\ estimateReadingTime (Finite 18014398509481996) (Some (Finite 3))
     <> Finite (inject_Z (Qceiling (18014398509481996 / 3)))
  /\ estimateReadingTime (Finite 7)
       (Some (Finite (3152519739159347 # 4503599627370496)))
     = Finite 10
  /\ Qceiling (7 / (3152519739159347 # 4503599627370496)) = 11%Z.
Proof.
  split; [vm_compute; reflexivity|]. split; [vm_compute; reflexivity|].
  split; [intros H; vm_compute in H; discriminate H|].
  split; vm_compute; reflexivity.
Qed.

(** C9, amended.  For a whole number of words [0 <= wordCount < 2^53] and a
    whole rate [0 < wpm < 2^53], [estimateReadingTime] is the ceiling of
    their quotient: the one integer [n] with
    [(n - 1) * wpm < wordCount <= n * wpm]; the rate is 200 when it is left
    out, and [estimateReadingTime(450, 200)] is 3. *)
Theorem estimateReadingTime_is_ceiling (wordCount wpm : Z) :
  (0 <= wordCount < 2 ^ 53)%Z ->
  (0 < wpm < 2 ^ 53)%Z ->
  let words := Finite (inject_Z wordCount) in
  let n := Qceiling (inject_Z wordCount / inject_Z wpm) in
  estimateReadingTime words (Some (Finite (inject_Z wpm))) = Finite (inject_Z n)
  /\ ((n - 1) * wpm < wordCount <= n * wpm)%Z
  /\ (forall m : Z, ((m - 1) * wpm < wordCount <= m * wpm)%Z -> m = n)
  /\ (0 <= n)%Z
  /\ estimateReadingTime words None = estimateReadingTime words (Some (Finite 200))
  /\ estimateReadingTime (Finite 450) (Some (Finite 200)) = Finite 3.
Proof.
  intros Hw Hr words n. subst words n.
  rewrite (ceiling_quotient _ _ (proj1 Hr)).
  pose proof (ceiling_div_bounds wordCount wpm (proj1 Hr)) as B. simpl in B.
  split; [apply estimateReadingTime_safe; assumption|].
  split; [exact B|]. split; [|split; [|split]].
  - intros m Hm. nia.
  - nia.
  - reflexivity.
  - vm_compute; reflexivity.
Qed.

Lemma estimateReadingTime_witness :
  let words := Finite (inject_Z 450) in
  let n := Qceiling (inject_Z 450 / inject_Z 200) in
  estimateReadingTime words (Some (Finite (inject_Z 200))) = Finite (inject_Z n)
  /\ ((n - 1) * 200 < 450 <= n * 200)%Z
  /\ (forall m : Z, ((m - 1) * 200 < 450 <= m * 200)%Z -> m = n)
  /\ (0 <= n)%Z
  /\ estimateReadingTime words None = estimateReadingTime words (Some (Finite 200))
  /\ estimateReadingTime (Finite 450) (Some (Finite 200)) = Finite 3.
Proof.
  apply (estimateReadingTime_is_ceiling 450 200); lia.
Defined.

(** ** The matcher in general *)

Lemma prev_after_app (w : jsstring) (c : ascii) (prev : option ascii) :
  prev_after (w ++ [c]) prev = Some c.
Proof. unfold prev_after. now rewrite fold_left_app. Qed.

(** Whatever a quantified class returns, it has read some [w] made of
    characters of the class, within its bounds, and the rest of the pattern
    has returned that result from there. *)
Lemma cls_loop_sound (p : ascii -> bool) (lo : nat) (hi : option nat) (greedy : bool)
  (cont : nat -> jsstring -> option ascii -> jsstring -> outcome) :
  forall (s : jsstring) (k : nat) (acc : jsstring) (prev : option ascii)
         (r : list jsstring * nat),
    cls_loop p lo hi greedy cont k acc prev s = Some r ->
    exists w s',
      s = w ++ s'
      /\ Forall (fun c => p c = true) w
      /\ lo <= k + length w
      /\ (w = [] \/ within (k + length w) hi)
      /\ cont (k + length w) (rev w ++ acc) (prev_after w prev) s' = Some r.
Proof.
  induction s as [|c s IH]; intros k acc prev r H.
  - exists [], []. simpl in H.
    assert (Hh : (if lo <=? k then cont k acc prev [] else None) = Some r)
      by (destruct greedy; [exact H | destruct (if lo <=? k then _ else _); [exact H | discriminate]]).
    destruct (lo <=? k) eqn:E; [|discriminate]. apply Nat.leb_le in E.
    rewrite Nat.add_0_r. repeat split; auto.
  - simpl in H.
    assert (Hcases :
      ((p c && below k hi) = true
       /\ cls_loop p lo hi greedy cont (S k) (c :: acc) (Some c) s = Some r)
      \/ ((lo <=? k) = true /\ cont k acc prev (c :: s) = Some r)).
    { destruct greedy.
      - destruct (p c && below k hi).
        + destruct (cls_loop p lo hi true cont (S k) (c :: acc) (Some c) s) as [r'|].
          * left. split; [reflexivity | exact H].
          * right. destruct (lo <=? k); [split; [reflexivity | exact H] | discriminate].
        + right. destruct (lo <=? k); [split; [reflexivity | exact H] | discriminate].
      - destruct (lo <=? k).
        + destruct (cont k acc prev (c :: s)) as [r'|].
          * right. split; [reflexivity | exact H].
          * destruct (p c && below k hi); [left; split; [reflexivity | exact H] | discriminate].
        + destruct (p c && below k hi); [left; split; [reflexivity | exact H] | discriminate]. }
    destruct Hcases as [[E L] | [E L]].
    + apply andb_true_iff in E. destruct E as [Hp Hb].
      destruct (IH _ _ _ _ L) as (w & s' & -> & Hw & Hlo & Hhi & Hc).
      exists (c :: w), s'. simpl length. simpl rev.
      rewrite <- app_assoc. simpl. rewrite Nat.add_succ_r.
      repeat split; auto.
      right. destruct Hhi as [-> | Hhi]; [|exact Hhi].
      simpl. rewrite Nat.add_0_r. unfold within, below in *.
      destruct hi as [h|]; [apply Nat.ltb_lt in Hb; lia | exact I].
    + exists [], (c :: s). apply Nat.leb_le in E. rewrite Nat.add_0_r.
      repeat split; auto.
Qed.

(** A greedy class followed by a rest that cannot fail reads the longest
    run of its characters. *)
Lemma cls_loop_longest (p : ascii -> bool) (lo : nat)
  (cont : nat -> jsstring -> option ascii -> jsstring -> outcome) :
  (forall k acc prev s, cont k acc prev s <> None) ->
  forall (s : jsstring) (k : nat) (acc : jsstring) (prev : option ascii),
    cls_loop p lo None true cont k acc prev s
    = if lo <=? k + length (take_while p s)
      then cont (k + length (take_while p s)) (rev (take_while p s) ++ acc)
             (prev_after (take_while p s) prev) (drop_while p s)
      else None.
Proof.
  intros Htotal. induction s as [|c s IH]; intros k acc prev.
  - simpl. rewrite Nat.add_0_r. reflexivity.
  - simpl. destruct (p c) eqn:Hp; simpl.
    + rewrite IH, Nat.add_succ_r, <- app_assoc. simpl.
      destruct (lo <=? S (k + length (take_while p s))) eqn:E.
      * destruct (cont _ _ _ _) eqn:Hc; [reflexivity | now apply Htotal in Hc].
      * apply Nat.leb_gt in E.
        destruct (lo <=? k) eqn:E'; [apply Nat.leb_le in E'; lia | reflexivity].
    + rewrite Nat.add_0_r. reflexivity.
Qed.

Lemma run_plus_last (p : ascii -> bool) (prev : option ascii) (s : jsstring)
  (n : nat) (caps : list jsstring) :
  run [plus p] prev s n caps
  = if 1 <=? length (take_while p s)
    then Some (caps, n + length (take_while p s))
    else None.
Proof.
  unfold plus. simpl run. rewrite cls_loop_longest; [reflexivity | discriminate].
Qed.

(** ** The sanitizer step in the browser *)










(** ** The blockquote step of [countWords] *)

Lemma length_take_while_space (s : jsstring) :
  (1 <=? length (take_while is_space s)) = starts_with_space s.
Proof. destruct s as [|d s]; simpl; [reflexivity | now destruct (is_space d)]. Qed.

Lemma run_blockquote (prev : option ascii) (s : jsstring) :
  run re_blockquote prev s 0 []
  = match s with
    | c :: s' =>
        if is_char ">" c && starts_with_space s'
        then Some ([], S (length (take_while is_space s')))
        else None
    | [] => None
    end.
Proof.
  unfold re_blockquote. rewrite run_chr. destruct s as [|c s']; [reflexivity|].
  rewrite run_plus_last, length_take_while_space.
  destruct (is_char ">" c); [|reflexivity].
  destruct (starts_with_space s'); reflexivity.
Qed.

(** The replacement is the deletion of the markers wherever they stand;
    while the whitespace of a match is passed over, [skip] is the length of
    what is left of it. *)
Lemma replace_blockquote_from (s : jsstring) :
  forall prev,
    replace_from re_blockquote [] prev (length (take_while is_space s)) s
    = delete_quote_markers true s
    /\ replace_from re_blockquote [] prev 0 s = delete_quote_markers false s.
Proof.
  induction s as [|c s IH]; intros prev.
  - split; reflexivity.
  - assert (H0 : replace_from re_blockquote [] prev 0 (c :: s)
                 = delete_quote_markers false (c :: s)).
    { cbn [replace_from]. rewrite run_blockquote. simpl delete_quote_markers.
      destruct (is_char ">" c && starts_with_space s).
      - simpl. apply IH.
      - f_equal. apply IH. }
    split; [|exact H0].
    simpl take_while. simpl delete_quote_markers.
    destruct (is_space c) eqn:E.
    + simpl length. cbn [replace_from]. apply IH.
    + simpl length. rewrite H0. simpl. reflexivity.
Qed.

Lemma replace_blockquote (s : jsstring) :
  replace re_blockquote [] s = delete_quote_markers false s.
Proof. apply replace_blockquote_from. Qed.

Lemma delete_quote_markers_head (s : jsstring) :
  forall dropping,
    dropping = true \/ starts_with_space s = false ->
    starts_with_space (delete_quote_markers dropping s) = false.
Proof.
  induction s as [|c s IH]; intros dropping H; [reflexivity|].
  simpl. destruct (dropping && is_space c) eqn:E1.
  - apply IH. now left.
  - destruct (is_char ">" c && starts_with_space s) eqn:E2.
    + apply IH. now left.
    + simpl. destruct H as [-> | H]; [exact E1 | exact H].
Qed.

Lemma delete_quote_markers_none_left (s : jsstring) :
  forall dropping, has_quote_marker (delete_quote_markers dropping s) = false.
Proof.
  induction s as [|c s IH]; intros dropping; [reflexivity|].
  simpl. destruct (dropping && is_space c); [apply IH|].
  destruct (is_char ">" c && starts_with_space s) eqn:E; [apply IH|].
  simpl. rewrite IH, orb_false_r.
  apply andb_false_iff in E. destruct E as [E | E].
  - now rewrite E.
  - rewrite (delete_quote_markers_head s false (or_intror E)). apply andb_false_r.
Qed.

Lemma starts_with_space_before_marker (a b : jsstring) :
  starts_with_space (a ++ ">"%char :: b) = starts_with_space a.
Proof. destruct a; reflexivity. Qed.

Lemma delete_quote_markers_at_marker (a b : jsstring) :
  forall dropping,
    delete_quote_markers dropping (a ++ ">"%char :: " "%char :: b)
    = delete_quote_markers dropping a ++ delete_quote_markers true b.
Proof.
  induction a as [|c a IH]; intros dropping.
  - destruct dropping; reflexivity.
  - simpl. rewrite starts_with_space_before_marker.
    destruct (dropping && is_space c); [apply IH|].
    destruct (is_char ">" c && starts_with_space a); [apply IH|].
    simpl. now rewrite IH.
Qed.

(** C10.  [countWords] of the text [5 > 3] is 2: the blockquote step is the
    deletion of every [>] that is followed by whitespace, with that
    whitespace, wherever it stands in the text, and no such [>] is left
    after it; a marker in the middle of a line goes like one at its start. *)
Theorem blockquote_step_deletes_everywhere :
  countWords "5 > 3" = 2
  /\ plainText "5 > 3" = "5 3"
  /\ (forall s, replace re_blockquote [] s = delete_quote_markers false s)
  /\ (forall s, has_quote_marker (replace re_blockquote [] s) = false)
  /\ (forall a b,
        replace re_blockquote [] (a ++ ">" ++ " " ++ b)
        = replace re_blockquote [] a ++ delete_quote_markers true b).
Proof.
  split; [vm_compute; reflexivity|].
  split; [vm_compute; reflexivity|].
  split; [apply replace_blockquote|].
  split.
  - intros s. rewrite replace_blockquote. apply delete_quote_markers_none_left.
  - intros a b. rewrite !replace_blockquote. apply delete_quote_markers_at_marker.
Qed.

(** ** Heading ids *)

Lemma run_non_word (prev : option ascii) (s : jsstring) :
  run re_non_word prev s 0 []
  = if 1 <=? length (take_while (fun c => negb (is_word c)) s)
    then Some ([], length (take_while (fun c => negb (is_word c)) s))
    else None.
Proof. unfold re_non_word. apply run_plus_last. Qed.

Lemma replace_non_word_from (s : jsstring) :
  forall prev,
    replace_from re_non_word [Lit "-"] prev
      (length (take_while (fun c => negb (is_word c)) s)) s
    = hyphenate true s
    /\ replace_from re_non_word [Lit "-"] prev 0 s = hyphenate false s.
Proof.
  induction s as [|c s IH]; intros prev.
  - split; reflexivity.
  - assert (H0 : replace_from re_non_word [Lit "-"] prev 0 (c :: s)
                 = hyphenate false (c :: s)).
    { cbn [replace_from]. rewrite run_non_word. simpl.
      destruct (is_word c); simpl.
      - f_equal. apply IH.
      - f_equal. apply IH. }
    split; [|exact H0].
    simpl take_while. destruct (is_word c) eqn:E; simpl negb; cbv iota.
    + simpl length. rewrite H0. simpl. now rewrite E.
    + simpl length. cbn [replace_from]. simpl hyphenate. rewrite E. apply IH.
Qed.

Lemma slug_hyphenates (t : jsstring) : slug t = hyphenate false (toLowerCase t).
Proof. unfold slug, replace. apply replace_non_word_from. Qed.


(** ** Heading extraction *)




Lemma run_heading_sound (prev : option ascii) (s : jsstring)
  (caps : list jsstring) (n : nat) :
  run headingRegex prev s 0 [] = Some (caps, n) ->
  at_bol prev = true
  /\ exists hashes ws body post,
       s = hashes ++ ws ++ body ++ post
       /\ Forall (fun c => is_char "#" c = true) hashes
       /\ 1 <= length hashes <= 6
       /\ Forall (fun c => is_space c = true) ws /\ ws <> []
       /\ Forall (fun c => is_dot c = true) body /\ body <> []
       /\ at_eol post = true
       /\ caps = [hashes; body]
       /\ n = length hashes + length ws + length body.
Proof.
  unfold headingRegex, plus. cbn [run].
  destruct (at_bol prev); [|discriminate]. intros H. split; [reflexivity|].
  apply cls_loop_sound in H. destruct H as (w1 & s1 & -> & F1 & L1 & B1 & H).
  apply cls_loop_sound in H. destruct H as (w2 & s2 & -> & F2 & L2 & _ & H).
  apply cls_loop_sound in H. destruct H as (w3 & s3 & -> & F3 & L3 & _ & H).
  destruct (at_eol s3) eqn:E; [|discriminate].
  injection H as <- <-.
  exists w1, w2, w3, s3. simpl in *.
  assert (w1 <> []) by (intros ->; simpl in L1; lia).
  assert (w2 <> []) by (intros ->; simpl in L2; lia).
  assert (w3 <> []) by (intros ->; simpl in L3; lia).
  destruct B1 as [B1 | B1]; [contradiction|].
  rewrite !app_nil_r, !rev_involutive.
  repeat split; auto; lia.
Qed.

Lemma exec_from_sound (re : regex) (md : jsstring) :
  forall s pre skip,
    md = pre ++ s ->
    Forall (fun m => exists pre' s' n,
                md = pre' ++ s'
                /\ length pre' = index m
                /\ run re (prev_after pre' None) s' 0 [] = Some (groups m, n))
      (exec_from re (prev_after pre None) skip (length pre) s).
Proof.
  induction s as [|c s IH]; intros pre skip Hmd; [constructor|].
  assert (Hnext : forall k,
             Forall (fun m => exists pre' s' n,
                         md = pre' ++ s'
                         /\ length pre' = index m
                         /\ run re (prev_after pre' None) s' 0 [] = Some (groups m, n))
               (exec_from re (Some c) k (S (length pre)) s)).
  { intros k. specialize (IH (pre ++ [c]) k).
    rewrite prev_after_app, length_app, Nat.add_1_r in IH.
    apply IH. now rewrite <- app_assoc. }
  cbn [exec_from]. destruct skip as [|k]; [|apply Hnext].
  destruct (run re (prev_after pre None) (c :: s) 0 []) as [[caps n]|] eqn:R;
    [|apply Hnext].
  constructor; [|apply Hnext].
  exists pre, (c :: s), n. auto.
Qed.





Lemma line_start_at_bol (pre : jsstring) :
  line_start pre -> at_bol (prev_after pre None) = true.
Proof.
  intros [-> | (p & c & -> & Hc)]; [reflexivity | now rewrite prev_after_app].
Qed.

Lemma line_end_at_eol (post : jsstring) : line_end post -> at_eol post = true.
Proof. intros [-> | (c & r & -> & Hc)]; [reflexivity | exact Hc]. Qed.

Lemma repeat_hashes (n : nat) :
  Forall (fun c => is_char "#" c = true) (repeat "#"%char n).
Proof. induction n; simpl; constructor; [reflexivity | assumption]. Qed.




















(** * Further properties of the code *)

(** ** Escaping *)

Lemma escape_char_chain (c : ascii) :
  flat_map (replace_char "039" "&#39;")
    (flat_map (replace_char "034" "&quot;")
       (flat_map (replace_char ">" "&gt;")
          (flat_map (replace_char "<" "&lt;") (replace_char "&" "&amp;" c))))
  = escape_char c.
Proof.
  unfold escape_char, replace_char at 5.
  destruct (is_char "&" c) eqn:E0; [reflexivity|].
  cbn [flat_map app]. unfold replace_char at 4. rewrite app_nil_r.
  destruct (is_char "<" c) eqn:E1; [reflexivity|].
  cbn [flat_map app]. unfold replace_char at 3. rewrite app_nil_r.
  destruct (is_char ">" c) eqn:E2; [reflexivity|].
  cbn [flat_map app]. unfold replace_char at 2. rewrite app_nil_r.
  destruct (is_char "034" c) eqn:E3; [reflexivity|].
  cbn [flat_map app]. unfold replace_char. rewrite app_nil_r.
  destruct (is_char "039" c) eqn:E4; reflexivity.
Qed.

Lemma escapeHtml_flat_map (code : jsstring) :
  escapeHtml code = flat_map escape_char code.
Proof.
  unfold escapeHtml. rewrite !replace_chr.
  induction code as [|c code IH]; [reflexivity|].
  cbn [flat_map]. rewrite !flat_map_app, IH. f_equal. apply escape_char_chain.
Qed.

(** X1.  The five replacements of the escaping chain act as one pass over
    the characters: the ampersand goes first, so the entities written by the
    later steps are not escaped again, and escaping a concatenation is
    concatenating the escapes. *)
Theorem escapeHtml_is_one_pass :
  (forall code, escapeHtml code = flat_map escape_char code)
  /\ (forall a b, escapeHtml (a ++ b) = escapeHtml a ++ escapeHtml b)
  /\ escapeHtml [] = [].
Proof.
  split; [apply escapeHtml_flat_map | split; [|reflexivity]].
  intros a b. rewrite !escapeHtml_flat_map. apply flat_map_app.
Qed.

Ltac classify c :=
  unfold escape_char;
  let E := fresh "E" in
  destruct (is_char "&" c) eqn:E;
  [apply is_char_true in E; subst c
  | let E1 := fresh "E" in
    destruct (is_char "<" c) eqn:E1;
    [apply is_char_true in E1; subst c
    | let E2 := fresh "E" in
      destruct (is_char ">" c) eqn:E2;
      [apply is_char_true in E2; subst c
      | let E3 := fresh "E" in
        destruct (is_char "034" c) eqn:E3;
        [apply is_char_true in E3; subst c
        | let E4 := fresh "E" in
          destruct (is_char "039" c) eqn:E4;
          [apply is_char_true in E4; subst c|]]]]].

Lemma escape_char_cancel (x y : ascii) (u v : jsstring) :
  escape_char x ++ u = escape_char y ++ v -> x = y /\ u = v.
Proof.
  intros H. revert H. classify x; classify y; simpl; intros H;
    try (injection H; intros; subst; try discriminate; auto; fail).
Qed.

(** X2.  The escaping loses nothing: two codes with the same escape are the
    same code. *)
Theorem escapeHtml_injective (a b : jsstring) :
  escapeHtml a = escapeHtml b -> a = b.
Proof.
  rewrite !escapeHtml_flat_map. revert b.
  induction a as [|x a IH]; intros [|y b] H; simpl in H.
  - reflexivity.
  - exfalso. revert H. classify y; discriminate.
  - exfalso. revert H. classify x; discriminate.
  - apply escape_char_cancel in H. destruct H as [-> H]. f_equal. now apply IH.
Qed.

Lemma escapeHtml_injective_witness : ("<b>" : jsstring) = "<b>".
Proof. apply (escapeHtml_injective "<b>" "<b>"). reflexivity. Defined.

(** X3.  The [highlightCode] of [part_004] returns what Prism made of the
    code only when the language names a grammar object and Prism returned
    normally; in every other case (no entry, an entry that is not an object,
    an exception inside Prism) it returns the escaped code, which holds no
    angle bracket, double quote or apostrophe. *)
Theorem fixed_highlightCode_falls_back_to_escape (P : Prism) (code lang : jsstring) :
  (exists g html,
      prism_languages P (normalizedLang lang) = Some (Grammar g)
      /\ prism_highlight P code (Grammar g) (normalizedLang lang) = Ok html
      /\ Part004.highlightCode P code lang = html)
  \/ (Part004.highlightCode P code lang = escapeHtml code
      /\ Forall (fun c => is_markup_char c = false) (Part004.highlightCode P code lang)).
Proof.
  unfold Part004.highlightCode.
  destruct (prism_languages P (normalizedLang lang)) as [[g|]|] eqn:E;
    try (right; split; [reflexivity | apply escapeHtml_leaves_no_markup]).
  destruct (prism_highlight P code (Grammar g) (normalizedLang lang)) as [html|e] eqn:H.
  - left. exists g, html. auto.
  - right; split; [reflexivity | apply escapeHtml_leaves_no_markup].
Qed.

(** ** Language aliases *)

Lemma assoc_In (k : jsstring) (m : list (jsstring * jsstring)) (v : jsstring) :
  assoc k m = Some v -> exists k', In (k', v) m.
Proof.
  induction m as [|[k' v'] m IH]; simpl; [discriminate|].
  destruct (str_eqb k k').
  - intros H. injection H as <-. exists k'. now left.
  - intros H. destruct (IH H) as [k0 Hk]. exists k0. now right.
Qed.

Lemma languageMap_targets (alias name : jsstring) :
  In (alias, name) languageMap ->
  normalizedLang alias = name /\ normalizedLang name = name.
Proof.
  unfold languageMap. simpl.
  intros H. repeat (destruct H as [H|H]; [injection H as <- <-; split; reflexivity|]).
  contradiction.
Qed.

(** X4.  Normalising a language tag is idempotent, and an alias of the table
    is highlighted exactly like the name it stands for, in both copies. *)
Theorem aliases_highlight_like_their_names :
  (forall lang, normalizedLang (normalizedLang lang) = normalizedLang lang)
  /\ (forall alias name P code,
        In (alias, name) languageMap ->
        normalizedLang alias = name
        /\ Part004.highlightCode P code alias = Part004.highlightCode P code name
        /\ Part005.highlightCode P code alias = Part005.highlightCode P code name).
Proof.
  split.
  - intros lang.
    assert (Hn : normalizedLang lang
                 = match assoc lang languageMap with
                   | Some v => if truthy v then v else lang
                   | None => lang
                   end) by reflexivity.
    destruct (assoc lang languageMap) as [v|] eqn:E.
    + destruct (assoc_In _ _ _ E) as [k Hk].
      destruct (languageMap_targets _ _ Hk) as [_ Hv].
      destruct (truthy v); rewrite Hn; [exact Hv | exact Hn].
    + rewrite Hn. exact Hn.
  - intros alias name P code H.
    destruct (languageMap_targets _ _ H) as [Ha Hn].
    unfold Part004.highlightCode, Part005.highlightCode. rewrite Ha, Hn. auto.
Qed.

Lemma aliases_witness :
  normalizedLang "js" = "javascript"
  /\ Part004.highlightCode sample_prism "let x" "js"
     = Part004.highlightCode sample_prism "let x" "javascript"
  /\ Part005.highlightCode sample_prism "let x" "js"
     = Part005.highlightCode sample_prism "let x" "javascript".
Proof.
  apply (proj2 aliases_highlight_like_their_names "js" "javascript" sample_prism "let x").
  now left.
Defined.

(** ** The code rule under the configuration of [parseMarkdown] *)

(** The language label of a fenced block: the info string, or [text] when
    there is none or it is empty. *)
Lemma code_rule_label :
  forall env o code,
    Part004.renderer_code env o code None = Part004.renderer_code env o code (Some [])
    /\ Part004.renderer_code env o code None
       = Part004.renderer_code env o code (Some ("text" : jsstring))
    /\ Part005.renderer_code env o code None = Part005.renderer_code env o code (Some [])
    /\ Part005.renderer_code env o code None
       = Part005.renderer_code env o code (Some ("text" : jsstring)).
Proof. intros. repeat split; reflexivity. Qed.

(** X5.  With the options [parseMarkdown] builds, a fenced block in a
    language that no grammar answers to is rendered by [part_004] around the
    escaped code, so that the fragment between the [code] tags holds no
    markup character; [part_005] puts the code there as it came. *)
Theorem code_rule_on_unregistered_language
  (env : Env) (options : option MarkdownOptions) (code lang : jsstring) :
  lang <> [] ->
  prism_languages (prism env) (normalizedLang lang) = None ->
  r_code (renderer (Part004.configureMarked env (Part004.effective_options env options)))
    code (Some lang)
  = Ok (code_block lang (escapeHtml code))
  /\ Forall (fun c => is_markup_char c = false) (escapeHtml code)
  /\ r_code (renderer (Part005.configureMarked env (Part005.effective_options env options)))
       code (Some lang)
     = Ok (code_block lang code).
Proof.
  intros Hl Hp. destruct lang as [|c lang]; [contradiction|].
  simpl. unfold Part004.renderer_code, Part005.renderer_code. simpl.
  unfold Part004.highlightCode, Part005.highlightCode. rewrite Hp.
  split; [reflexivity | split; [apply escapeHtml_leaves_no_markup | reflexivity]].
Qed.

Lemma code_rule_witness :
  r_code (renderer (Part004.configureMarked server_env
                      (Part004.effective_options server_env None)))
    "<b>" (Some ("brainfuck-v2" : jsstring))
  = Ok (code_block "brainfuck-v2" (escapeHtml "<b>"))
  /\ Forall (fun c => is_markup_char c = false) (escapeHtml "<b>")
  /\ r_code (renderer (Part005.configureMarked server_env
                         (Part005.effective_options server_env None)))
       "<b>" (Some ("brainfuck-v2" : jsstring))
     = Ok (code_block "brainfuck-v2" "<b>").
Proof.
  apply (code_rule_on_unregistered_language server_env None "<b>" "brainfuck-v2").
  - discriminate.
  - reflexivity.
Defined.

(** ** The shape of heading ids *)

Lemma lower_char_idempotent (c : ascii) : lower_char (lower_char c) = lower_char c.
Proof. destruct c as [[] [] [] [] [] [] [] []]; reflexivity. Qed.

Lemma lowered_word_is_slug_char (c : ascii) :
  is_word (lower_char c) = true -> is_slug_char (lower_char c) = true.
Proof.
  destruct c as [[] [] [] [] [] [] [] []]; vm_compute; intros H;
    first [reflexivity | discriminate].
Qed.

Lemma word_is_not_hyphen (c : ascii) : is_word c = true -> is_char "-" c = false.
Proof.
  intros H. destruct (is_char "-" c) eqn:E; [|reflexivity].
  apply is_char_true in E. subst c. discriminate.
Qed.

Lemma hyphenate_slug_chars (t : jsstring) :
  forall in_run,
    Forall (fun c => is_slug_char c = true) (hyphenate in_run (toLowerCase t)).
Proof.
  induction t as [|c t IH]; intros in_run; simpl; [constructor|].
  destruct (is_word (lower_char c)) eqn:E.
  - constructor; [now apply lowered_word_is_slug_char | apply IH].
  - destruct in_run; [apply IH | constructor; [reflexivity | apply IH]].
Qed.

Lemma hyphenate_in_run_head (s : jsstring) :
  match hyphenate true s with
  | d :: _ => is_char "-" d = false
  | [] => True
  end.
Proof.
  induction s as [|c s IH]; simpl; [exact I|].
  destruct (is_word c) eqn:E; [now apply word_is_not_hyphen | exact IH].
Qed.

Lemma hyphenate_no_double_hyphen (s : jsstring) :
  forall in_run, no_double_hyphen (hyphenate in_run s) = true.
Proof.
  induction s as [|c s IH]; intros in_run; simpl; [reflexivity|].
  destruct (is_word c) eqn:E.
  - simpl. rewrite (word_is_not_hyphen _ E). simpl. apply IH.
  - destruct in_run; [apply IH|]. simpl. rewrite IH, andb_true_r.
    pose proof (hyphenate_in_run_head s) as H.
    destruct (hyphenate true s) as [|d r]; [reflexivity | now rewrite H].
Qed.

(** X6.  An id made by [slug] holds lower-case letters, digits, underscores
    and hyphens only, and never two hyphens in a row; so do the ids of the
    headings that [extractHeadings] returns. *)
Theorem slug_shape :
  (forall t, Forall (fun c => is_slug_char c = true) (slug t)
             /\ no_double_hyphen (slug t) = true)
  /\ (forall md, Forall (fun h => Forall (fun c => is_slug_char c = true) (id h)
                                  /\ no_double_hyphen (id h) = true)
                   (extractHeadings md)).
Proof.
  assert (H : forall t, Forall (fun c => is_slug_char c = true) (slug t)
                        /\ no_double_hyphen (slug t) = true).
  { intros t. rewrite slug_hyphenates. split;
      [apply hyphenate_slug_chars | apply hyphenate_no_double_hyphen]. }
  split; [exact H|].
  intros md. unfold extractHeadings. apply Forall_forall. intros h Hin.
  apply in_map_iff in Hin. destruct Hin as (m & <- & _). apply H.
Qed.

Lemma hyphenate_lowered_fixed (t : jsstring) :
  forall in_run,
    toLowerCase (hyphenate in_run (toLowerCase t)) = hyphenate in_run (toLowerCase t).
Proof.
  induction t as [|c t IH]; intros in_run; simpl; [reflexivity|].
  destruct (is_word (lower_char c)).
  - simpl. now rewrite lower_char_idempotent, IH.
  - destruct in_run; [apply IH|]. simpl. now rewrite IH.
Qed.

Lemma hyphenate_twice (s : jsstring) :
  (forall in_run, hyphenate false (hyphenate in_run s) = hyphenate in_run s)
  /\ hyphenate true (hyphenate true s) = hyphenate true s.
Proof.
  induction s as [|c s [IH1 IH2]]; [split; [intros []|]; reflexivity|].
  split.
  - intros in_run. simpl. destruct (is_word c) eqn:E.
    + simpl. now rewrite E, IH1.
    + destruct in_run; [apply IH1|]. simpl. now rewrite IH2.
  - simpl. destruct (is_word c) eqn:E; [|exact IH2].
    simpl. now rewrite E, IH1.
Qed.

(** X7.  Making an id out of an id changes nothing: [slug] is idempotent. *)
Theorem slug_idempotent (t : jsstring) : slug (slug t) = slug t.
Proof.
  rewrite !slug_hyphenates, hyphenate_lowered_fixed.
  apply hyphenate_twice.
Qed.

(** ** Headings: where none is found, and what their text looks like *)

Lemma run_heading_needs_hash (prev : option ascii) (c : ascii) (s : jsstring) :
  at_bol prev && is_char "#" c = false ->
  run headingRegex prev (c :: s) 0 [] = None.
Proof.
  intros H. destruct (run headingRegex prev (c :: s) 0 []) as [[caps n]|] eqn:R;
    [|reflexivity].
  apply run_heading_sound in R.
  destruct R as (Hb & hashes & ws & body & post & Hs & Fh & Lh & _).
  destruct hashes as [|d hashes]; [simpl in Lh; lia|].
  injection Hs as <- _. inversion Fh as [|? ? Hd _]; subst.
  rewrite Hb, Hd in H. discriminate.
Qed.

Lemma exec_heading_without_hash (s : jsstring) :
  forall prev skip pos,
    hash_at_line_start (at_bol prev) s = false ->
    exec_from headingRegex prev skip pos s = [].
Proof.
  induction s as [|c s IH]; intros prev skip pos H; [reflexivity|].
  simpl in H. apply orb_false_iff in H. destruct H as [H1 H2].
  cbn [exec_from]. destruct skip as [|k]; [|now apply IH].
  rewrite (run_heading_needs_hash _ _ _ H1). now apply IH.
Qed.

(** X8.  A text in which no line starts with a hash has no headings; the
    empty text is one such. *)
Theorem no_hash_at_line_start_no_headings (md : jsstring) :
  hash_at_line_start true md = false -> extractHeadings md = [].
Proof.
  intros H. unfold extractHeadings, exec_all.
  now rewrite (exec_heading_without_hash md None 0 0 H).
Qed.

Lemma no_headings_witness : extractHeadings "a # b is #1" = [].
Proof. apply (no_hash_at_line_start_no_headings "a # b is #1"). reflexivity. Defined.

Lemma take_drop_while (p : ascii -> bool) (s : jsstring) :
  s = take_while p s ++ drop_while p s.
Proof.
  induction s as [|c s IH]; simpl; [reflexivity|].
  destruct (p c); [simpl; now f_equal | reflexivity].
Qed.

Lemma drop_while_head (s : jsstring) :
  starts_with_space (drop_while is_space s) = false.
Proof.
  induction s as [|c s IH]; simpl; [reflexivity|].
  destruct (is_space c) eqn:E; [exact IH | exact E].
Qed.

Lemma drop_while_Forall (P : ascii -> Prop) (p : ascii -> bool) (s : jsstring) :
  Forall P s -> Forall P (drop_while p s).
Proof.
  induction 1 as [|c s Hc Hs IH]; simpl; [constructor|].
  destruct (p c); [exact IH | now constructor].
Qed.

(** What [trim] leaves at the end: the text without its trailing spaces. *)
Lemma drop_trailing (s : jsstring) :
  s = rev (drop_while is_space (rev s)) ++ rev (take_while is_space (rev s)).
Proof.
  rewrite <- rev_app_distr, <- take_drop_while. symmetry. apply rev_involutive.
Qed.

Lemma trim_edges (s : jsstring) :
  starts_with_space (trim s) = false /\ starts_with_space (rev (trim s)) = false.
Proof.
  unfold trim. split.
  - pose proof (drop_while_head s) as H.
    rewrite (drop_trailing (drop_while is_space s)) in H.
    destruct (rev (drop_while is_space (rev (drop_while is_space s))));
      [reflexivity | exact H].
  - rewrite rev_involutive. apply drop_while_head.
Qed.

Lemma trim_Forall (P : ascii -> Prop) (s : jsstring) : Forall P s -> Forall P (trim s).
Proof.
  intros H. unfold trim. apply Forall_rev, drop_while_Forall, Forall_rev.
  now apply drop_while_Forall.
Qed.

(** X9.  The text of every heading that [extractHeadings] returns is
    trimmed and stays on one line: it neither starts nor ends with
    whitespace and holds no line terminator; its level is between one and
    six. *)
Theorem heading_text_is_trimmed (md : jsstring) :
  Forall (fun h =>
            starts_with_space (text h) = false
            /\ starts_with_space (rev (text h)) = false
            /\ Forall (fun c => is_line_terminator c = false) (text h)
            /\ 1 <= level h <= 6)
    (extractHeadings md).
Proof.
  unfold extractHeadings. apply Forall_forall. intros h Hin.
  apply in_map_iff in Hin. destruct Hin as (m & <- & Hin).
  pose proof (exec_from_sound headingRegex md md [] 0 eq_refl) as F.
  rewrite Forall_forall in F. destruct (F m Hin) as (pre & s & n & _ & _ & R).
  apply run_heading_sound in R.
  destruct R as (_ & hashes & ws & body & post & _ & _ & Lh & _ & _ & Fb & _ & _ & Hc & _).
  unfold heading_of_match. rewrite Hc. simpl.
  destruct (trim_edges body) as [H1 H2].
  repeat split; try assumption; try lia.
  apply trim_Forall. eapply Forall_impl; [|exact Fb].
  intros c Hd. unfold is_dot in Hd. now apply negb_true_iff in Hd.
Qed.

(** ** Word count of a text without markup *)

Lemma run_cls_head_fails (p : ascii -> bool) (lo : nat) (hi : option nat)
  (greedy capture : bool) (re : regex) (prev : option ascii) (s : jsstring)
  (n : nat) (caps : list jsstring) :
  1 <= lo ->
  match s with c :: _ => p c = false | [] => True end ->
  run (Cls p lo hi greedy capture :: re) prev s n caps = None.
Proof.
  intros Hlo Hs. simpl run.
  assert (E : (lo <=? 0) = false) by (apply Nat.leb_gt; lia).
  destruct s as [|c s]; simpl; rewrite E.
  - now destruct greedy.
  - rewrite Hs. now destruct greedy.
Qed.

Lemma replace_no_match (Q : ascii -> Prop) (re : regex) (t : template) :
  (forall prev u, Forall Q u -> run re prev u 0 [] = None) ->
  forall s prev, Forall Q s -> replace_from re t prev 0 s = s.
Proof.
  intros Hrun. induction s as [|c s IH]; intros prev Hs; cbn [replace_from].
  - now rewrite (Hrun prev [] Hs).
  - rewrite (Hrun prev (c :: s) Hs). f_equal. apply IH. now inversion Hs.
Qed.

Ltac head_not_trigger :=
  match goal with
  | H : Forall _ ?u |- match ?u with _ => _ end =>
      destruct H as [|? ? Hc _]; [exact I|];
      unfold is_trigger in Hc; repeat (apply orb_false_iff in Hc; destruct Hc as [Hc ?]);
      unfold is_bullet; repeat match goal with E : _ = false |- _ => rewrite E end;
      try assumption; reflexivity
  end.

Lemma run_image_without_bracket (prev : option ascii) (u : jsstring) :
  Forall (fun c => is_trigger c = false) u -> run re_image prev u 0 [] = None.
Proof.
  intros H. unfold re_image. rewrite run_chr.
  destruct H as [|c u Hc Hu]; [reflexivity|].
  destruct (is_char "!" c); [|reflexivity].
  rewrite run_chr. destruct Hu as [|d u Hd _]; [reflexivity|].
  unfold is_trigger in Hd. repeat (apply orb_false_iff in Hd; destruct Hd as [Hd ?]).
  now replace (is_char "[" d) with false.
Qed.

(** Without trigger characters the ten stripping steps leave the text as it
    is, and only the line breaks are turned into spaces. *)
Lemma plainText_without_triggers (md : jsstring) :
  Forall (fun c => is_trigger c = false) md ->
  plainText md = trim (flat_map (replace_char "010" " ") md).
Proof.
  intros H. unfold plainText, replace.
  assert (Hstep : forall re t,
             (forall prev u, Forall (fun c => is_trigger c = false) u ->
                             run re prev u 0 [] = None) ->
             replace_from re t None 0 md = md).
  { intros re t Hre. now apply (replace_no_match _ re t Hre). }
  rewrite (Hstep re_heading_marker);
    [|intros; apply run_cls_head_fails; [lia | head_not_trigger]].
  rewrite (Hstep re_bold);
    [|intros; apply run_cls_head_fails; [lia | head_not_trigger]].
  rewrite (Hstep re_italic);
    [|intros; apply run_cls_head_fails; [lia | head_not_trigger]].
  rewrite (Hstep re_inline_code);
    [|intros; apply run_cls_head_fails; [lia | head_not_trigger]].
  rewrite (Hstep re_code_block);
    [|intros; apply run_cls_head_fails; [lia | head_not_trigger]].
  rewrite (Hstep re_link);
    [|intros; apply run_cls_head_fails; [lia | head_not_trigger]].
  rewrite (Hstep re_image); [|intros; now apply run_image_without_bracket].
  rewrite (Hstep re_blockquote);
    [|intros; apply run_cls_head_fails; [lia | head_not_trigger]].
  rewrite (Hstep re_list_marker);
    [|intros; apply run_cls_head_fails; [lia | head_not_trigger]].
  rewrite (Hstep re_ordered_marker);
    [|intros; apply run_cls_head_fails; [lia | head_not_trigger]].
  f_equal. apply replace_chr_from.
Qed.

Lemma words_newlines (s : jsstring) :
  forall in_word,
    words in_word (flat_map (replace_char "010" " ") s) = words in_word s.
Proof.
  induction s as [|c s IH]; intros in_word; [reflexivity|].
  simpl. unfold replace_char. destruct (is_char "010" c) eqn:E.
  - apply is_char_true in E. subst c. simpl. apply IH.
  - simpl. now rewrite !IH.
Qed.

Lemma words_blank (s : jsstring) :
  Forall (fun c => is_space c = true) s -> forall in_word, words in_word s = 0.
Proof.
  induction 1 as [|c s Hc _ IH]; intros in_word; simpl; [reflexivity|].
  rewrite Hc. apply IH.
Qed.

Lemma words_drop_leading (s : jsstring) :
  words false (drop_while is_space s) = words false s.
Proof.
  induction s as [|c s IH]; simpl; [reflexivity|].
  destruct (is_space c) eqn:E; [exact IH | simpl; now rewrite E].
Qed.

Lemma words_drop_trailing (x sp : jsstring) :
  Forall (fun c => is_space c = true) sp ->
  forall in_word, words in_word (x ++ sp) = words in_word x.
Proof.
  intros Hsp. induction x as [|c x IH]; intros in_word; simpl.
  - now apply words_blank.
  - now rewrite !IH.
Qed.

Lemma take_while_Forall (p : ascii -> bool) (s : jsstring) :
  Forall (fun c => p c = true) (take_while p s).
Proof.
  induction s as [|c s IH]; simpl; [constructor|].
  destruct (p c) eqn:E; [now constructor | constructor].
Qed.

Lemma words_trim (s : jsstring) : words false (trim s) = words false s.
Proof.
  unfold trim. rewrite <- (words_drop_leading s).
  rewrite (drop_trailing (drop_while is_space s)) at 2.
  rewrite words_drop_trailing; [reflexivity|].
  apply Forall_rev, take_while_Forall.
Qed.

Lemma words_and_gaps (u : jsstring) (d : ascii) :
  is_space d = false ->
  words true (u ++ [d]) = gaps false (u ++ [d])
  /\ words false (u ++ [d]) = 1 + gaps true (u ++ [d]).
Proof.
  intros Hd. induction u as [|c u [IH1 IH2]]; simpl.
  - rewrite Hd. split; reflexivity.
  - destruct (is_space c); simpl; rewrite ?IH1, ?IH2; split; reflexivity.
Qed.

Lemma gaps_after_word (s : jsstring) :
  starts_with_space s = false -> gaps true s = gaps false s.
Proof. destruct s as [|c s]; simpl; [reflexivity | now intros ->]. Qed.

Lemma split_spaces_length (s : jsstring) :
  (forall prev cur, length (split_from re_spaces prev 0 cur s) = 1 + gaps false s)
  /\ (forall prev cur,
        length (split_from re_spaces prev (length (take_while is_space s)) cur s)
        = 1 + gaps true s).
Proof.
  induction s as [|c s [IH1 IH2]]; [split; reflexivity|].
  assert (H0 : forall prev cur,
             length (split_from re_spaces prev 0 cur (c :: s)) = 1 + gaps false (c :: s)).
  { intros prev cur. cbn [split_from]. unfold re_spaces. rewrite run_plus_last.
    simpl take_while. simpl gaps. destruct (is_space c) eqn:E.
    - simpl. now rewrite IH2.
    - simpl. apply IH1. }
  split; [exact H0|].
  intros prev cur. simpl take_while. destruct (is_space c) eqn:E.
  - cbn [length split_from]. simpl gaps. rewrite E. apply IH2.
  - cbn [length]. rewrite H0. simpl. now rewrite E.
Qed.

Lemma countWords_plain (md : jsstring) :
  Forall (fun c => is_trigger c = false) md ->
  countWords md = words false md.
Proof.
  intros H. unfold countWords. rewrite (plainText_without_triggers md H).
  set (y := flat_map (replace_char "010" " ") md).
  assert (Hw : words false (trim y) = words false md).
  { rewrite words_trim. apply words_newlines. }
  destruct (trim_edges y) as [Hhead Hlast].
  destruct (trim y) as [|c x] eqn:E; [exact Hw|].
  simpl truthy. cbv iota. rewrite <- Hw.
  unfold split. rewrite (proj1 (split_spaces_length (c :: x))).
  rewrite <- (gaps_after_word _ Hhead).
  destruct (rev (c :: x)) as [|d r] eqn:R.
  - apply (f_equal (@rev ascii)) in R. rewrite rev_involutive in R. discriminate.
  - apply (f_equal (@rev ascii)) in R. rewrite rev_involutive in R. simpl in R.
    rewrite R. symmetry. now apply words_and_gaps.
Qed.

(** X10.  On a text that holds none of the characters the patterns start
    from (hash, star, backtick, opening bracket, greater-than, hyphen, plus,
    digit), [countWords] is the number of maximal runs of characters that
    are not whitespace. *)
Theorem countWords_of_plain_text (md : jsstring) :
  Forall (fun c => is_trigger c = false) md ->
  countWords md = words false md.
Proof. apply countWords_plain. Qed.

Lemma countWords_plain_witness :
  countWords "Hello world, this is
 plain text!" = words false "Hello world, this is
 plain text!".
Proof.
  apply (countWords_of_plain_text "Hello world, this is
 plain text!").
  repeat constructor.
Defined.

(** ** Reading time in whole numbers *)

(** X11.  For a whole number of words and a whole positive rate, both below
    2^53, the reading time is [(words + rate - 1) / rate] in integer
    division; with the rate left out it is [(words + 199) / 200]. *)
Theorem estimateReadingTime_integer_formula (n p : Z) :
  (0 <= n < 2 ^ 53)%Z ->
  (0 < p < 2 ^ 53)%Z ->
  estimateReadingTime (Finite (inject_Z n)) (Some (Finite (inject_Z p)))
  = Finite (inject_Z ((n + p - 1) / p))
  /\ estimateReadingTime (Finite (inject_Z n)) None
     = Finite (inject_Z ((n + 199) / 200)).
Proof.
  intros Hn Hp. split; [now apply estimateReadingTime_safe|].
  change (estimateReadingTime (Finite (inject_Z n)) None)
    with (estimateReadingTime (Finite (inject_Z n)) (Some (Finite (inject_Z 200)))).
  rewrite estimateReadingTime_safe by lia. do 3 f_equal. lia.
Qed.

Lemma estimateReadingTime_integer_witness :
  estimateReadingTime (Finite (inject_Z 1000)) (Some (Finite (inject_Z 60)))
  = Finite (inject_Z ((1000 + 60 - 1) / 60))
  /\ estimateReadingTime (Finite (inject_Z 1000)) None
     = Finite (inject_Z ((1000 + 199) / 200)).
Proof.
  apply (estimateReadingTime_integer_formula 1000 60); lia.
Defined.

Lemma rounded_count_ge_1 (n : nat) : 1 <= n -> (1 <= rounded_count n)%Q.
Proof.
  intros H. unfold rounded_count.
  apply Qle_trans with (y := nearest_value (inject_Z 1)).
  - rewrite (nearest_value_exact 1) by lia. apply Qle_refl.
  - apply nearest_value_monotone; [reflexivity|]. rewrite <- Zle_Qle. lia.
Qed.

Lemma rounded_count_monotone (n m : nat) :
  1 <= n -> n <= m -> (rounded_count n <= rounded_count m)%Q.
Proof.
  intros H1 H. unfold rounded_count. apply nearest_value_monotone.
  - change 0%Q with (inject_Z 0). rewrite <- Zlt_Qlt. lia.
  - rewrite <- Zle_Qle. lia.
Qed.

Lemma rounded_minutes_positive (n : nat) : 1 <= n -> (0 < rounded_minutes n)%Q.
Proof.
  intros H. pose proof (rounded_count_ge_1 n H) as Ha.
  unfold rounded_minutes.
  apply Qlt_le_trans with (y := nearest_value (1 # 200)); [vm_compute; reflexivity|].
  apply nearest_value_monotone; [reflexivity|].
  rewrite Qred_correct. unfold Qdiv. change (/ 200)%Q with (1 # 200)%Q. lra.
Qed.

Lemma rounded_minutes_monotone (n m : nat) :
  1 <= n -> n <= m -> (rounded_minutes n <= rounded_minutes m)%Q.
Proof.
  intros H1 H. pose proof (rounded_count_ge_1 n H1) as Ha.
  pose proof (rounded_count_monotone n m H1 H) as Hm.
  unfold rounded_minutes. apply nearest_value_monotone.
  - rewrite Qred_correct. unfold Qdiv. change (/ 200)%Q with (1 # 200)%Q. lra.
  - rewrite !Qred_correct. unfold Qdiv. change (/ 200)%Q with (1 # 200)%Q. lra.
Qed.

(** The reading time of a count of at least one word, at the default
    rate, in terms of the two roundings. *)
Lemma reading_time_of_count (n : nat) :
  1 <= n ->
  estimateReadingTime (number_of_nat n) None
  = if Qle_bool (2 ^ 1024) (rounded_count n) then Infinity false
    else if Qle_bool (2 ^ 1024) (rounded_minutes n) then Infinity false
         else Finite (inject_Z (Qceiling (rounded_minutes n))).
Proof.
  intros H. pose proof (rounded_count_ge_1 n H) as Ha.
  pose proof (rounded_minutes_positive n H) as Hb.
  unfold number_of_nat. rewrite round_positive
    by (change 0%Q with (inject_Z 0); rewrite <- Zlt_Qlt; lia).
  unfold nearest. fold (rounded_count n).
  destruct (Qle_bool (2 ^ 1024) (rounded_count n)); [reflexivity|].
  unfold estimateReadingTime, divide.
  change (Qeq_bool 200 0) with false. cbv iota.
  assert (E : Qeq_bool (Qred (rounded_count n)) 0 = false).
  { destruct (Qeq_bool (Qred (rounded_count n)) 0) eqn:E; [|reflexivity].
    apply Qeq_bool_iff in E. rewrite Qred_correct in E. lra. }
  rewrite E. rewrite round_positive
    by (rewrite Qred_correct; unfold Qdiv; change (/ 200)%Q with (1 # 200)%Q; lra).
  unfold nearest. fold (rounded_minutes n).
  destruct (Qle_bool (2 ^ 1024) (rounded_minutes n)); [reflexivity|].
  unfold Math_ceil. rewrite (Qceiling_comp _ _ (Qred_correct _)).
  assert (Hc : (0 < Qceiling (rounded_minutes n))%Z).
  { rewrite Zlt_Qlt. eapply Qlt_le_trans; [exact Hb | apply Qle_ceiling]. }
  destruct (Z.eqb_spec (Qceiling (rounded_minutes n)) 0) as [E0|_]; [lia|].
  reflexivity.
Qed.

Lemma reading_time_monotone (n m : nat) :
  n <= m ->
  number_le (estimateReadingTime (number_of_nat n) None)
    (estimateReadingTime (number_of_nat m) None).
Proof.
  intros H. destruct (Nat.eq_dec n 0) as [->|Hn].
  - change (estimateReadingTime (number_of_nat 0) None) with (Finite 0).
    destruct (Nat.eq_dec m 0) as [->|Hm].
    + simpl. apply Qle_refl.
    + rewrite reading_time_of_count by lia.
      pose proof (rounded_minutes_positive m ltac:(lia)) as Hb.
      destruct (Qle_bool (2 ^ 1024) (rounded_count m)); [exact I|].
      destruct (Qle_bool (2 ^ 1024) (rounded_minutes m)); [exact I|].
      simpl. change 0%Q with (inject_Z 0). rewrite <- Zle_Qle.
      assert (inject_Z 0 < inject_Z (Qceiling (rounded_minutes m)))%Q
        by (eapply Qlt_le_trans; [exact Hb | apply Qle_ceiling]).
      rewrite <- Zlt_Qlt in H0. lia.
  - rewrite !reading_time_of_count by lia.
    pose proof (rounded_count_monotone n m ltac:(lia) H) as Ha.
    pose proof (rounded_minutes_monotone n m ltac:(lia) H) as Hb.
    destruct (Qle_bool (2 ^ 1024) (rounded_count n)) eqn:A1.
    + apply Qle_bool_iff in A1.
      assert (A2 : Qle_bool (2 ^ 1024) (rounded_count m) = true)
        by (apply Qle_bool_iff; lra).
      rewrite A2. exact I.
    + destruct (Qle_bool (2 ^ 1024) (rounded_minutes n)) eqn:B1.
      * apply Qle_bool_iff in B1.
        assert (B2 : Qle_bool (2 ^ 1024) (rounded_minutes m) = true)
          by (apply Qle_bool_iff; lra).
        rewrite B2. destruct (Qle_bool (2 ^ 1024) (rounded_count m)); exact I.
      * destruct (Qle_bool (2 ^ 1024) (rounded_count m)); [exact I|].
        destruct (Qle_bool (2 ^ 1024) (rounded_minutes m)); [exact I|].
        simpl. rewrite <- Zle_Qle. now apply Qceiling_resp_le.
Qed.

Lemma reading_time_zero (n : nat) :
  estimateReadingTime (number_of_nat n) None = Finite 0 <-> n = 0.
Proof.
  split.
  - intros E. destruct (Nat.eq_dec n 0) as [|Hn]; [assumption|]. exfalso.
    rewrite reading_time_of_count in E by lia.
    pose proof (rounded_minutes_positive n ltac:(lia)) as Hb.
    destruct (Qle_bool (2 ^ 1024) (rounded_count n)); [discriminate|].
    destruct (Qle_bool (2 ^ 1024) (rounded_minutes n)); [discriminate|].
    injection E as E.
    assert (inject_Z 0 < inject_Z (Qceiling (rounded_minutes n)))%Q
      by (eapply Qlt_le_trans; [exact Hb | apply Qle_ceiling]).
    rewrite <- Zlt_Qlt in H. lia.
  - intros ->. reflexivity.
Qed.

Lemma Qred_inject_Z (z : Z) : Qred (inject_Z z) = inject_Z z.
Proof.
  unfold Qred, inject_Z.
  pose proof (Z.ggcd_gcd z 1) as G. pose proof (Z.ggcd_correct_divisors z 1) as D.
  destruct (Z.ggcd z 1) as [g [a b]]. simpl in G. rewrite Z.gcd_1_r in G. subst g.
  destruct D as [D1 D2]. rewrite Z.mul_1_l in D1, D2. subst a b. reflexivity.
Qed.

Lemma number_of_small_nat (n : nat) :
  (Z.of_nat n < 2 ^ 53)%Z -> number_of_nat n = Finite (inject_Z (Z.of_nat n)).
Proof.
  intros H. destruct n as [|n]; [reflexivity|].
  unfold number_of_nat.
  rewrite round_positive by (change 0%Q with (inject_Z 0); rewrite <- Zlt_Qlt; lia).
  pose proof (nearest_value_exact (Z.of_nat (S n)) ltac:(lia)) as E.
  rewrite nearest_finite.
  - f_equal. rewrite (Qred_complete _ _ E). apply Qred_inject_Z.
  - rewrite E. eapply Qlt_trans; [|apply safe_below_overflow]. rewrite <- Zlt_Qlt. lia.
Qed.

Lemma reading_time_one (n : nat) :
  1 <= n <= 200 -> estimateReadingTime (number_of_nat n) None = Finite 1.
Proof.
  intros H. rewrite number_of_small_nat by lia.
  change (estimateReadingTime (Finite (inject_Z (Z.of_nat n))) None)
    with (estimateReadingTime (Finite (inject_Z (Z.of_nat n)))
            (Some (Finite (inject_Z 200)))).
  rewrite estimateReadingTime_safe by lia.
  change (Finite 1) with (Finite (inject_Z 1)). do 2 f_equal. symmetry.
  apply Z.div_unique with (r := (Z.of_nat n - 1)%Z); lia.
Qed.

(** X12.  With the default rate the reading time grows with the number of
    words, is zero for no words only, and is one minute for one to two
    hundred words. *)
Theorem estimateReadingTime_default_rate (n m : nat) :
  (n <= m ->
   number_le (estimateReadingTime (number_of_nat n) None)
     (estimateReadingTime (number_of_nat m) None))
  /\ (estimateReadingTime (number_of_nat n) None = Finite 0 <-> n = 0)
  /\ (1 <= n <= 200 -> estimateReadingTime (number_of_nat n) None = Finite 1).
Proof.
  split; [apply reading_time_monotone|].
  split; [apply reading_time_zero | apply reading_time_one].
Qed.

Lemma estimateReadingTime_default_witness :
  (150 <= 450 ->
   number_le (estimateReadingTime (number_of_nat 150) None)
     (estimateReadingTime (number_of_nat 450) None))
  /\ (estimateReadingTime (number_of_nat 150) None = Finite 0 <-> 150 = 0)
  /\ (1 <= 150 <= 200 -> estimateReadingTime (number_of_nat 150) None = Finite 1).
Proof. exact (estimateReadingTime_default_rate 150 450). Defined.

(** ** The metadata of the preview *)

Lemma space_is_not_trigger (c : ascii) : is_space c = true -> is_trigger c = false.
Proof.
  destruct c as [[] [] [] [] [] [] [] []]; vm_compute; intros H;
    first [reflexivity | discriminate].
Qed.

Lemma space_is_not_hash (c : ascii) : is_space c = true -> is_char "#" c = false.
Proof.
  intros H. destruct (is_char "#" c) eqn:E; [|reflexivity].
  apply is_char_true in E. subst c. discriminate.
Qed.

Lemma blank_has_no_hash (s : jsstring) :
  Forall (fun c => is_space c = true) s ->
  forall bol, hash_at_line_start bol s = false.
Proof.
  induction 1 as [|c s Hc _ IH]; intros bol; simpl; [reflexivity|].
  now rewrite (space_is_not_hash _ Hc), andb_false_r, IH.
Qed.

Lemma drop_while_nil (p : ascii -> bool) (s : jsstring) :
  drop_while p s = [] -> Forall (fun c => p c = true) s.
Proof.
  induction s as [|c s IH]; simpl; [constructor|].
  destruct (p c) eqn:E; [intros H; constructor; auto | discriminate].
Qed.

Lemma trim_nil_blank (s : jsstring) :
  trim s = [] -> Forall (fun c => is_space c = true) s.
Proof.
  unfold trim. intros H.
  apply (f_equal (@rev ascii)) in H. rewrite rev_involutive in H. simpl in H.
  apply drop_while_nil, Forall_rev in H. rewrite rev_involutive in H.
  pose proof (drop_while_head s) as Hh.
  destruct (drop_while is_space s) as [|c r] eqn:E.
  - now apply drop_while_nil.
  - inversion H as [|? ? Hc _]; subst. simpl in Hh. congruence.
Qed.

(** X13.  The flag [hasContent] of the preview is off exactly for a content
    of whitespace only; for such a content the metadata is empty (no
    heading, no word, no minute) and the parsed content is the placeholder,
    whichever copy of the utilities is imported. *)
Theorem preview_of_blank_content (env : Env) (content : jsstring) :
  (hasContent (metadata content) = false
   <-> Forall (fun c => is_space c = true) content)
  /\ (Forall (fun c => is_space c = true) content ->
      metadata content
      = {| headings := []; wordCount := 0; readingTime := Finite 0; hasContent := false |}
      /\ Part004.parseMarkdown env content (Some preview_call_options) = placeholder
      /\ Part005.parseMarkdown env content (Some preview_call_options) = placeholder).
Proof.
  assert (Hflag : Forall (fun c => is_space c = true) content ->
                  hasContent (metadata content) = false).
  { intros H. unfold metadata. simpl. now rewrite (trim_blank _ H). }
  split; [split; [|exact Hflag]|].
  - unfold metadata. simpl. intros H. apply trim_nil_blank.
    destruct (trim content); [reflexivity | discriminate].
  - intros H.
    assert (Hw : countWords content = 0).
    { rewrite countWords_plain.
      - now apply words_blank.
      - eapply Forall_impl; [|exact H]. apply space_is_not_trigger. }
    assert (Hh : extractHeadings content = []).
    { unfold extractHeadings, exec_all.
      now rewrite (exec_heading_without_hash content None 0 0 (blank_has_no_hash _ H _)). }
    split; [|split].
    + unfold metadata. rewrite Hw, Hh. simpl. now rewrite (trim_blank _ H).
    + unfold Part004.parseMarkdown. now rewrite (trim_blank _ H).
    + unfold Part005.parseMarkdown. now rewrite (trim_blank _ H).
Qed.

Lemma preview_of_blank_witness :
  metadata "   "
  = {| headings := []; wordCount := 0; readingTime := Finite 0; hasContent := false |}
  /\ Part004.parseMarkdown browser_env "   " (Some preview_call_options) = placeholder
  /\ Part005.parseMarkdown browser_env "   " (Some preview_call_options) = placeholder.
Proof.
  apply (proj2 (preview_of_blank_content browser_env "   ")). repeat constructor.
Defined.

(** ** Options of [parseMarkdown] *)

Lemma sanitize_requested_nullish (options : option MarkdownOptions) :
  sanitize_requested options = nullish (field sanitize options) true.
Proof.
  unfold sanitize_requested.
  destruct (field sanitize options) as [[|]|]; reflexivity.
Qed.

(** X14.  [parseMarkdown] reads its options only through [breaks ?? true],
    [gfm ?? true] and [sanitize !== false]: two calls whose options agree on
    these three give the same result, in both copies.  In particular a call
    without options is the call of the preview, with all three on. *)
Theorem parseMarkdown_reads_three_settings
  (env : Env) (markdown : jsstring) (o1 o2 : option MarkdownOptions) :
  nullish (field breaks o1) true = nullish (field breaks o2) true ->
  nullish (field gfm o1) true = nullish (field gfm o2) true ->
  sanitize_requested o1 = sanitize_requested o2 ->
  Part004.parseMarkdown env markdown o1 = Part004.parseMarkdown env markdown o2
  /\ Part005.parseMarkdown env markdown o1 = Part005.parseMarkdown env markdown o2.
Proof.
  intros Hb Hg Hs.
  assert (E4 : Part004.effective_options env o1 = Part004.effective_options env o2).
  { unfold Part004.effective_options.
    rewrite Hb, Hg, <- !sanitize_requested_nullish, Hs. reflexivity. }
  assert (E5 : Part005.effective_options env o1 = Part005.effective_options env o2).
  { unfold Part005.effective_options.
    rewrite Hb, Hg, <- !sanitize_requested_nullish, Hs. reflexivity. }
  unfold Part004.parseMarkdown, Part005.parseMarkdown. rewrite E4, E5, Hs.
  split; reflexivity.
Qed.

Lemma parseMarkdown_default_witness :
  Part004.parseMarkdown browser_env script_block None
  = Part004.parseMarkdown browser_env script_block (Some preview_call_options)
  /\ Part005.parseMarkdown browser_env script_block None
     = Part005.parseMarkdown browser_env script_block (Some preview_call_options).
Proof.
  apply (parseMarkdown_reads_three_settings browser_env script_block None
           (Some preview_call_options)); reflexivity.
Defined.

(** ** The link rule in the two copies *)

(** X15.  Where a global [window] exists the link rule of [part_005] returns
    the anchor that the rule of [part_004] returns. *)
Theorem link_rules_agree_with_window
  (env : Env) (w : Window) (href : jsstring) (title : option jsstring) (text : jsstring) :
  window env = Some w ->
  Part005.renderer_link env href title text
  = Ok (Part004.renderer_link env href title text).
Proof. apply link_rules_agree. Qed.

Lemma link_rules_agree_witness :
  Part005.renderer_link browser_env "https://other.org/" None "docs"
  = Ok (Part004.renderer_link browser_env "https://other.org/" None "docs").
Proof.
  apply (link_rules_agree_with_window browser_env
           {| location := Some {| origin := "https://example.com" |} |}
           "https://other.org/" None "docs").
  reflexivity.
Defined.

(** X16.  Without a global [window] the link rule of [part_005] throws on
    every [href] that begins with [http] and returns the plain anchor on
    every other one; the rule of [part_004] returns the plain anchor, with
    neither [rel] nor [target], on all of them. *)
Theorem link_rule_without_window
  (env : Env) (href : jsstring) (title : option jsstring) (text : jsstring) :
  window env = None ->
  Part004.renderer_link env href title text = anchor href title false text
  /\ (startsWith href "http" = true ->
      Part005.renderer_link env href title text = Throw (engine_error env "window"))
  /\ (startsWith href "http" = false ->
      Part005.renderer_link env href title text = Ok (anchor href title false text)).
Proof.
  intros Hw. unfold Part004.renderer_link, Part004.isExternal,
    Part004.getCurrentOrigin, Part005.renderer_link, Part005.isExternal.
  rewrite Hw. split; [|split].
  - simpl truthy. now rewrite andb_false_r.
  - intros ->. reflexivity.
  - intros ->. reflexivity.
Qed.

Lemma link_rule_without_window_witness :
  Part004.renderer_link server_env "https://other.org/" None "docs"
  = anchor "https://other.org/" None false "docs"
  /\ (startsWith "https://other.org/" "http" = true ->
      Part005.renderer_link server_env "https://other.org/" None "docs"
      = Throw (engine_error server_env "window"))
  /\ (startsWith "https://other.org/" "http" = false ->
      Part005.renderer_link server_env "https://other.org/" None "docs"
      = Ok (anchor "https://other.org/" None false "docs")).
Proof.
  apply (link_rule_without_window server_env "https://other.org/" None "docs").
  reflexivity.
Defined.

(** ** Failures inside [parseMarkdown] *)

(** X17.  When the parser throws, [parseMarkdown] returns the error
    paragraph in both copies, whatever the options and the environment: the
    message of the error stands in it as it is, not passed through the
    sanitizer, and [Unknown error] stands for a thrown value that is no
    [Error]. *)
Theorem parseMarkdown_error_paragraph
  (env : Env) (markdown : jsstring) (options : option MarkdownOptions) (e : thrown) :
  truthy (trim markdown) = true ->
  marked_parse env (Part004.configureMarked env (Part004.effective_options env options))
    markdown = Throw e ->
  marked_parse env (Part005.configureMarked env (Part005.effective_options env options))
    markdown = Throw e ->
  Part004.parseMarkdown env markdown options = error_markup e
  /\ Part005.parseMarkdown env markdown options = error_markup e
  /\ error_markup e
     = "<p class=" ++ quoted "text-red-500" ++ ">Error parsing markdown: "
         ++ match e with
            | ErrorObject message => message
            | OtherValue => "Unknown error" : jsstring
            end ++ "</p>".
Proof.
  intros Ht H4 H5. unfold Part004.parseMarkdown, Part005.parseMarkdown.
  rewrite Ht, H4, H5. repeat split.
Qed.

Lemma parseMarkdown_error_witness :
  Part004.parseMarkdown failing_env script_block (Some sanitize_only)
  = error_markup (ErrorObject "boom")
  /\ Part005.parseMarkdown failing_env script_block (Some sanitize_only)
     = error_markup (ErrorObject "boom")
  /\ error_markup (ErrorObject "boom")
     = "<p class=" ++ quoted "text-red-500" ++ ">Error parsing markdown: "
         ++ "boom" ++ "</p>".
Proof.
  apply (parseMarkdown_error_paragraph failing_env script_block (Some sanitize_only)
           (ErrorObject "boom")); reflexivity.
Defined.

(** ** [countWords] never counts more than the raw text has *)

Lemma subseq_nil_l (b : jsstring) : subseq [] b.
Proof. induction b; [apply subseq_nil | now apply subseq_skip]. Qed.

Lemma subseq_refl (a : jsstring) : subseq a a.
Proof. induction a; [apply subseq_nil | now apply subseq_take]. Qed.

Lemma subseq_nil_r (a : jsstring) : subseq a [] -> a = [].
Proof. now inversion 1. Qed.

Lemma subseq_app (a1 b1 a2 b2 : jsstring) :
  subseq a1 b1 -> subseq a2 b2 -> subseq (a1 ++ a2) (b1 ++ b2).
Proof.
  induction 1; intros H2; simpl;
    [exact H2 | apply subseq_skip; auto | apply subseq_take; auto].
Qed.

Lemma subseq_trans (a b c : jsstring) : subseq a b -> subseq b c -> subseq a c.
Proof.
  intros Hab Hbc. revert a Hab.
  induction Hbc as [|x b c Hbc IH|x b c Hbc IH]; intros a Hab.
  - exact Hab.
  - apply subseq_skip. now apply IH.
  - inversion Hab; subst; [apply subseq_skip | apply subseq_take]; now apply IH.
Qed.

Lemma words_open_le (s : jsstring) :
  words true s <= words false s /\ words false s <= 1 + words true s.
Proof. destruct s as [|c s]; simpl; [lia|]. destruct (is_space c); lia. Qed.

Lemma words_subseq (a b : jsstring) :
  subseq a b -> forall in_word, words in_word a <= words in_word b.
Proof.
  induction 1 as [|c a b H IH|c a b H IH]; intros in_word; simpl.
  - lia.
  - pose proof (words_open_le a) as Ha.
    destruct (is_space c).
    + specialize (IH false). destruct in_word; lia.
    + specialize (IH true). destruct in_word; lia.
  - destruct (is_space c); [apply IH|].
    specialize (IH true). lia.
Qed.

(** The groups that a match adds are parts of the matched text. *)
Lemma run_captures (re : regex) :
  forall prev s n caps r,
    run re prev s n caps = Some r ->
    exists gs m,
      fst r = caps ++ gs /\ snd r = n + m
      /\ Forall (fun g => subseq g (firstn m s)) gs.
Proof.
  induction re as [|a re IH]; intros prev s n caps r H.
  - injection H as <-. exists [], 0. simpl. rewrite app_nil_r, Nat.add_0_r. auto.
  - destruct a as [p lo hi greedy capture| |].
    + simpl in H. apply cls_loop_sound in H.
      destruct H as (w & s' & -> & _ & _ & _ & H). simpl in H.
      apply IH in H. destruct H as (gs & m & Hc & Hn & Hg).
      exists ((if capture then [w] else []) ++ gs), (length w + m).
      split; [|split].
      * rewrite Hc. unfold push_capture. rewrite app_nil_r, rev_involutive.
        destruct capture; [now rewrite <- app_assoc | reflexivity].
      * rewrite Hn. lia.
      * assert (E : firstn (length w + m) (w ++ s') = w ++ firstn m s')
          by apply firstn_app_2.
        rewrite E. apply Forall_app. split.
        -- destruct capture; [|constructor]. constructor; [|constructor].
           rewrite <- (app_nil_r w) at 1. apply subseq_app;
             [apply subseq_refl | apply subseq_nil_l].
        -- eapply Forall_impl; [|exact Hg]. intros g Hsub.
           apply (subseq_app [] w g (firstn m s')); [apply subseq_nil_l | exact Hsub].
    + simpl in H. destruct (at_bol prev); [now apply IH in H | discriminate].
    + simpl in H. destruct (at_eol s); [now apply IH in H | discriminate].
Qed.

(** A replacement that deletes the match, or keeps its first group. *)
Lemma expand_shrinks (re : regex) (t : template) (prev : option ascii) (s : jsstring)
  (caps : list jsstring) (n : nat) :
  t = [] \/ t = [Grp 1] ->
  run re prev s 0 [] = Some (caps, n) ->
  subseq (expand t caps) (firstn n s).
Proof.
  intros [-> | ->] H; [apply subseq_nil_l|].
  apply run_captures in H. destruct H as (gs & m & Hc & Hn & Hg).
  simpl in Hc, Hn. subst caps n. simpl. rewrite app_nil_r.
  destruct Hg as [|g gs Hg _]; [apply subseq_nil_l | exact Hg].
Qed.

Lemma replace_from_subseq (re : regex) (t : template) :
  t = [] \/ t = [Grp 1] ->
  forall s prev skip, subseq (replace_from re t prev skip s) (skipn skip s).
Proof.
  intros Ht. induction s as [|c s IH]; intros prev skip.
  - rewrite skipn_nil. cbn [replace_from].
    destruct skip; [|apply subseq_nil].
    destruct (run re prev [] 0 []) as [[caps n]|] eqn:R; [|apply subseq_nil].
    pose proof (expand_shrinks re t prev [] caps n Ht R) as H.
    now rewrite firstn_nil in H.
  - cbn [replace_from]. destruct skip as [|k]; [|apply IH].
    simpl skipn.
    destruct (run re prev (c :: s) 0 []) as [[caps [|k]]|] eqn:R.
    + pose proof (expand_shrinks re t prev _ caps 0 Ht R) as H.
      simpl in H. apply subseq_nil_r in H. rewrite H. simpl.
      apply subseq_take. apply (IH (Some c) 0).
    + pose proof (expand_shrinks re t prev _ caps (S k) Ht R) as H.
      rewrite <- (firstn_skipn (S k) (c :: s)).
      apply subseq_app; [exact H | apply (IH (Some c) k)].
    + apply subseq_take. apply (IH (Some c) 0).
Qed.

Lemma replace_subseq (re : regex) (t : template) (s : jsstring) :
  t = [] \/ t = [Grp 1] -> subseq (replace re t s) s.
Proof. intros Ht. apply (replace_from_subseq re t Ht s None 0). Qed.

Lemma split_trimmed_length (x : jsstring) :
  starts_with_space x = false ->
  starts_with_space (rev x) = false ->
  x <> [] ->
  length (split re_spaces x) = words false x.
Proof.
  intros Hhead Hlast Hx. unfold split.
  rewrite (proj1 (split_spaces_length x)), <- (gaps_after_word _ Hhead).
  destruct (rev x) as [|d r] eqn:R.
  - apply (f_equal (@rev ascii)) in R. rewrite rev_involutive in R. contradiction.
  - apply (f_equal (@rev ascii)) in R. rewrite rev_involutive in R. simpl in R.
    rewrite R. symmetry. now apply words_and_gaps.
Qed.

Lemma countWords_words (md : jsstring) : countWords md = words false (plainText md).
Proof.
  unfold countWords.
  assert (H : exists y, plainText md = trim y) by (eexists; reflexivity).
  destruct H as [y Hy]. rewrite Hy.
  destruct (trim_edges y) as [Hhead Hlast].
  destruct (trim y) as [|c x] eqn:E; [reflexivity|].
  simpl truthy. cbv iota. now apply split_trimmed_length.
Qed.

(** X18.  [countWords] is the number of runs of characters that are not
    whitespace in the stripped text, and it never exceeds that number for
    the text as it came: stripping only leaves characters out (and turns
    line breaks into spaces). *)
Theorem countWords_never_overcounts (md : jsstring) :
  countWords md = words false (plainText md)
  /\ countWords md <= words false md.
Proof.
  split; [apply countWords_words|].
  rewrite countWords_words. unfold plainText, re_newline.
  rewrite words_trim, replace_chr, words_newlines.
  apply words_subseq.
  repeat (eapply subseq_trans; [apply replace_subseq; auto|]).
  apply subseq_refl.
Qed.

(** ** What the stripping steps do to one construct in plain text *)

Lemma prev_after_cons (c : ascii) (x : jsstring) (prev : option ascii) :
  prev_after (c :: x) prev = prev_after x (Some c).
Proof. reflexivity. Qed.

(** A lazy class passes over the characters at which the rest of the
    pattern cannot start. *)
Lemma cls_loop_lazy_skips (p q : ascii -> bool) (lo : nat)
  (cont : nat -> jsstring -> option ascii -> jsstring -> outcome) :
  (forall k acc prev c u, q c = true -> cont k acc prev (c :: u) = None) ->
  forall (w s' : jsstring) (k : nat) (acc : jsstring) (prev : option ascii),
    Forall (fun c => p c = true /\ q c = true) w ->
    cls_loop p lo None false cont k acc prev (w ++ s')
    = cls_loop p lo None false cont (k + length w) (rev w ++ acc) (prev_after w prev) s'.
Proof.
  intros Hcont. induction w as [|c w IH]; intros s' k acc prev Hw.
  - simpl. now rewrite Nat.add_0_r.
  - inversion Hw as [|? ? [Hp Hq] Hw']; subst.
    simpl app. cbn [cls_loop]. rewrite (Hcont _ _ _ _ _ Hq), Hp. simpl.
    rewrite (IH s' (S k) (c :: acc) (Some c) Hw').
    simpl length. rewrite Nat.add_succ_r, <- app_assoc. simpl.
    now destruct (lo <=? k).
Qed.

(** A greedy class takes all the characters of its run when the run ends
    there and the rest of the pattern matches behind it. *)
Lemma cls_loop_greedy_all (p : ascii -> bool) (lo : nat) (hi : option nat)
  (cont : nat -> jsstring -> option ascii -> jsstring -> outcome) :
  forall (w s' : jsstring) (k : nat) (acc : jsstring) (prev : option ascii)
         (r : list jsstring * nat),
    Forall (fun c => p c = true) w ->
    within (k + length w) hi ->
    lo <= k + length w ->
    match s' with d :: _ => p d = false | [] => True end ->
    cont (k + length w) (rev w ++ acc) (prev_after w prev) s' = Some r ->
    cls_loop p lo hi true cont k acc prev (w ++ s') = Some r.
Proof.
  induction w as [|c w IH]; intros s' k acc prev r Hw Hhi Hlo Hend Hc.
  - simpl in *. rewrite Nat.add_0_r in *. apply Nat.leb_le in Hlo.
    destruct s' as [|d s'']; simpl; rewrite Hlo, Hc; [reflexivity|].
    now rewrite Hend.
  - inversion Hw as [|? ? Hp Hw']; subst. simpl length in *.
    rewrite Nat.add_succ_r in *. simpl rev in Hc. rewrite <- app_assoc in Hc.
    assert (Hb : below k hi = true).
    { unfold below, within in *. destruct hi as [h|]; [apply Nat.ltb_lt; lia | reflexivity]. }
    simpl app. cbn [cls_loop]. rewrite Hp, Hb. simpl.
    now rewrite (IH s' (S k) (c :: acc) (Some c) r Hw' Hhi Hlo Hend Hc).
Qed.

Lemma replace_from_prefix (re : regex) (t : template) (Q : ascii -> Prop) :
  (forall prev c u, Q c -> run re prev (c :: u) 0 [] = None) ->
  forall (a s : jsstring) (prev : option ascii),
    Forall Q a ->
    replace_from re t prev 0 (a ++ s) = a ++ replace_from re t (prev_after a prev) 0 s.
Proof.
  intros Hrun. induction a as [|c a IH]; intros s prev Ha; [reflexivity|].
  inversion Ha as [|? ? Hc Ha']; subst.
  simpl app. cbn [replace_from]. rewrite (Hrun _ _ _ Hc).
  now rewrite (IH s (Some c) Ha').
Qed.

Lemma replace_from_skip (re : regex) (t : template) :
  forall (x b : jsstring) (prev : option ascii),
    replace_from re t prev (length x) (x ++ b)
    = replace_from re t (prev_after x prev) 0 b.
Proof.
  induction x as [|c x IH]; intros b prev; [reflexivity|].
  simpl. apply IH.
Qed.

Lemma replace_from_match (re : regex) (t : template) (prev : option ascii)
  (c : ascii) (x b : jsstring) (caps : list jsstring) :
  run re prev (c :: x ++ b) 0 [] = Some (caps, S (length x)) ->
  replace_from re t prev 0 (c :: x ++ b)
  = expand t caps ++ replace_from re t (prev_after (c :: x) prev) 0 b.
Proof.
  intros H. cbn [replace_from]. rewrite H. now rewrite replace_from_skip.
Qed.

Lemma replace_head_id (p : ascii -> bool) (lo : nat) (hi : option nat)
  (greedy capture : bool) (re : regex) (t : template) (s : jsstring) :
  1 <= lo ->
  Forall (fun c => p c = false) s ->
  replace (Cls p lo hi greedy capture :: re) t s = s.
Proof.
  intros Hlo Hs. unfold replace.
  apply (replace_no_match (fun c => p c = false)); [|exact Hs].
  intros prev u Hu. apply run_cls_head_fails; [exact Hlo|].
  destruct Hu; [exact I | assumption].
Qed.

Lemma replace_from_head_id (p : ascii -> bool) (lo : nat) (hi : option nat)
  (greedy capture : bool) (re : regex) (t : template) (s : jsstring)
  (prev : option ascii) :
  1 <= lo ->
  Forall (fun c => p c = false) s ->
  replace_from (Cls p lo hi greedy capture :: re) t prev 0 s = s.
Proof.
  intros Hlo Hs.
  apply (replace_no_match (fun c => p c = false)); [|exact Hs].
  intros prev' u Hu. apply run_cls_head_fails; [exact Hlo|].
  destruct Hu; [exact I | assumption].
Qed.

Lemma run_cls (p : ascii -> bool) (lo : nat) (hi : option nat) (greedy capture : bool)
  (re : regex) (prev : option ascii) (s : jsstring) (n : nat) (caps : list jsstring) :
  run (Cls p lo hi greedy capture :: re) prev s n caps
  = cls_loop p lo hi greedy
      (fun k acc prev s => run re prev s (n + k) (push_capture capture acc caps))
      0 [] prev s.
Proof. reflexivity. Qed.

Lemma cls_loop_lazy_here (p : ascii -> bool) (lo : nat) (hi : option nat)
  (cont : nat -> jsstring -> option ascii -> jsstring -> outcome)
  (k : nat) (acc : jsstring) (prev : option ascii) (s : jsstring)
  (r : list jsstring * nat) :
  lo <= k ->
  cont k acc prev s = Some r ->
  cls_loop p lo hi false cont k acc prev s = Some r.
Proof.
  intros Hlo Hc. apply Nat.leb_le in Hlo.
  destruct s; simpl; now rewrite Hlo, Hc.
Qed.

Ltac step_chr Hd := rewrite run_chr; cbv beta iota; rewrite ?Hd; cbv beta iota.

(** One delimited phrase: the opening delimiter is one or two copies of the
    character [d], the phrase holds no [d] and no line break, and the
    closing delimiter follows. *)
Lemma run_delimited_two (d : ascii) (prev : option ascii) (t b : jsstring) (n : nat) :
  t <> [] ->
  Forall (fun c => is_dot c = true /\ negb (is_char d c) = true) t ->
  run [chr d; chr d; plus_lazy_group is_dot; chr d; chr d] prev
    (d :: d :: t ++ d :: d :: b) n []
  = Some ([t], n + (2 + length t + 2)).
Proof.
  intros Ht Ft.
  assert (Hd : is_char d d = true) by now apply is_char_true.
  step_chr Hd. step_chr Hd.
  unfold plus_lazy_group. rewrite run_cls.
  rewrite (cls_loop_lazy_skips is_dot (fun c => negb (is_char d c)) 1).
  - apply cls_loop_lazy_here.
    + destruct t; [contradiction | simpl; lia].
    + step_chr Hd. step_chr Hd. cbn [run].
      unfold push_capture. rewrite app_nil_r, rev_involutive.
      do 2 f_equal. lia.
  - intros k acc prev' c u Hq. rewrite run_chr.
    apply negb_true_iff in Hq. now rewrite Hq.
  - exact Ft.
Qed.

Lemma run_delimited_one (d : ascii) (prev : option ascii) (t b : jsstring) (n : nat) :
  t <> [] ->
  Forall (fun c => is_dot c = true /\ negb (is_char d c) = true) t ->
  run [chr d; plus_lazy_group is_dot; chr d] prev (d :: t ++ d :: b) n []
  = Some ([t], n + (1 + length t + 1)).
Proof.
  intros Ht Ft.
  assert (Hd : is_char d d = true) by now apply is_char_true.
  step_chr Hd.
  unfold plus_lazy_group. rewrite run_cls.
  rewrite (cls_loop_lazy_skips is_dot (fun c => negb (is_char d c)) 1).
  - apply cls_loop_lazy_here.
    + destruct t; [contradiction | simpl; lia].
    + step_chr Hd. cbn [run].
      unfold push_capture. rewrite app_nil_r, rev_involutive.
      do 2 f_equal. lia.
  - intros k acc prev' c u Hq. rewrite run_chr.
    apply negb_true_iff in Hq. now rewrite Hq.
  - exact Ft.
Qed.

Lemma not_trigger (c : ascii) :
  is_trigger c = false ->
  is_char "#" c = false /\ is_char "*" c = false /\ is_char "`" c = false
  /\ is_char "[" c = false /\ is_char ">" c = false /\ is_bullet c = false
  /\ is_digit c = false.
Proof.
  unfold is_trigger, is_bullet. intros H.
  repeat (apply orb_false_iff in H; destruct H as [H ?]).
  repeat match goal with E : _ = false |- _ => rewrite E end.
  repeat split; reflexivity.
Qed.

(** A text with one match of the pattern, between two parts in which no
    match can start. *)
Lemma replace_one_match (p : ascii -> bool) (lo : nat) (hi : option nat)
  (greedy capture : bool) (re : regex) (t : template)
  (a b x : jsstring) (c : ascii) (caps : list jsstring) :
  1 <= lo ->
  Forall (fun c => p c = false) a ->
  Forall (fun c => p c = false) b ->
  run (Cls p lo hi greedy capture :: re) (prev_after a None) (c :: x ++ b) 0 []
  = Some (caps, S (length x)) ->
  replace (Cls p lo hi greedy capture :: re) t (a ++ c :: x ++ b)
  = a ++ expand t caps ++ b.
Proof.
  intros Hlo Ha Hb Hrun. unfold replace.
  rewrite (replace_from_prefix _ t (fun c => p c = false)); [|
    intros prev d u Hd; now apply run_cls_head_fails | exact Ha].
  f_equal. rewrite (replace_from_match _ t _ c x b caps Hrun). f_equal.
  now apply replace_from_head_id.
Qed.

Lemma trigger_free_app3 (a t b : jsstring) :
  Forall (fun c => is_trigger c = false) a ->
  Forall (fun c => is_trigger c = false) t ->
  Forall (fun c => is_trigger c = false) b ->
  Forall (fun c => is_trigger c = false) (a ++ t ++ b).
Proof. intros. repeat (apply Forall_app; split); assumption. Qed.

Ltac class_free :=
  repeat (apply Forall_app; split);
  repeat first
    [ apply Forall_nil
    | apply Forall_cons; [reflexivity|]
    | match goal with
      | H : Forall (fun c => is_trigger c = false) ?s |- Forall _ ?s =>
          eapply Forall_impl; [|exact H];
          let c := fresh "c" in let Hc := fresh "Hc" in
          intros c Hc; cbv beta; apply not_trigger in Hc; intuition
      end ].

Lemma plainText_after_bold (md s : jsstring) :
  Forall (fun c => is_trigger c = false) s ->
  replace re_heading_marker [] md = md ->
  replace re_bold [Grp 1] md = s ->
  countWords md = words false s.
Proof.
  intros Hs H1 H2. rewrite <- (countWords_plain s Hs).
  assert (Hs1 : replace re_heading_marker [] s = s)
    by (unfold re_heading_marker; apply replace_head_id; [lia | class_free]).
  assert (Hs2 : replace re_bold [Grp 1] s = s)
    by (unfold re_bold, chr at 1; apply replace_head_id; [lia | class_free]).
  unfold countWords, plainText. now rewrite H1, H2, Hs1, Hs2.
Qed.

(** X19.  A bold phrase counts as its text: where a phrase without line
    break stands between two pairs of stars in a text that holds no other
    markup, [countWords] is the word count of the text without the stars. *)
Theorem countWords_bold_phrase (a t b : jsstring) :
  Forall (fun c => is_trigger c = false) a ->
  Forall (fun c => is_trigger c = false) t ->
  Forall (fun c => is_trigger c = false) b ->
  t <> [] ->
  Forall (fun c => is_line_terminator c = false) t ->
  countWords (a ++ "**" ++ t ++ "**" ++ b) = words false (a ++ t ++ b).
Proof.
  intros Ha Ht Hb Hne Hl.
  apply plainText_after_bold.
  - now apply trigger_free_app3.
  - unfold re_heading_marker. apply replace_head_id; [lia | class_free].
  - change (a ++ "**" ++ t ++ "**" ++ b)
      with (a ++ "*"%char :: ("*"%char :: t ++ ["*"%char; "*"%char] ++ b)).
    replace ("*"%char :: t ++ ["*"%char; "*"%char] ++ b)
      with (("*"%char :: t ++ ["*"%char; "*"%char]) ++ b)
      by (simpl; now rewrite <- app_assoc).
    unfold re_bold, chr at 1.
    rewrite (replace_one_match _ _ _ _ _ _ [Grp 1] a b _ "*" [t]);
      [simpl; now rewrite app_nil_r | lia | class_free | class_free |].
    fold (chr "*"). simpl app. rewrite <- app_assoc. simpl app.
    rewrite (run_delimited_two "*" _ t b 0 Hne).
    + do 2 f_equal. simpl. rewrite length_app. simpl. lia.
    + clear Hne. induction Hl as [|c t Hc Hl IH]; [constructor|].
      inversion Ht as [|? ? Htc Ht']; subst.
      constructor; [|now apply IH].
      apply not_trigger in Htc. unfold is_dot. rewrite Hc. intuition.
      apply negb_true_iff. intuition.
Qed.

Lemma countWords_bold_witness :
  countWords ("some " ++ "**" ++ "bold words" ++ "**" ++ " here")
  = words false ("some " ++ "bold words" ++ " here").
Proof.
  apply (countWords_bold_phrase "some " "bold words" " here");
    try (repeat constructor); discriminate.
Defined.

Lemma is_char_refl (d : ascii) : is_char d d = true.
Proof. now apply is_char_true. Qed.

Ltac class_free2 :=
  repeat (apply Forall_app; split);
  repeat first
    [ apply Forall_nil
    | apply Forall_cons; [reflexivity|]
    | match goal with
      | H : Forall (fun c => is_trigger c = false) ?s |- Forall _ ?s =>
          eapply Forall_impl; [|exact H];
          let c := fresh "c" in let Hc := fresh "Hc" in
          intros c Hc; cbv beta; apply not_trigger in Hc; intuition
      | H : Forall (fun c => _ /\ _) ?s |- Forall _ ?s =>
          eapply Forall_impl; [|exact H]; cbv beta; intuition
      end ].

Lemma plainText_after_inline_code (md s : jsstring) :
  Forall (fun c => is_trigger c = false) s ->
  replace re_heading_marker [] md = md ->
  replace re_bold [Grp 1] md = md ->
  replace re_italic [Grp 1] md = md ->
  replace re_inline_code [Grp 1] md = s ->
  countWords md = words false s.
Proof.
  intros Hs H1 H2 H3 H4. rewrite <- (countWords_plain s Hs).
  assert (Hs1 : replace re_heading_marker [] s = s)
    by (unfold re_heading_marker; apply replace_head_id; [lia | class_free]).
  assert (Hs2 : replace re_bold [Grp 1] s = s)
    by (unfold re_bold, chr at 1; apply replace_head_id; [lia | class_free]).
  assert (Hs3 : replace re_italic [Grp 1] s = s)
    by (unfold re_italic, chr at 1; apply replace_head_id; [lia | class_free]).
  assert (Hs4 : replace re_inline_code [Grp 1] s = s)
    by (unfold re_inline_code, chr at 1; apply replace_head_id; [lia | class_free]).
  unfold countWords, plainText. now rewrite H1, H2, H3, H4, Hs1, Hs2, Hs3, Hs4.
Qed.

(** X20.  An inline code span counts as its text: where a phrase without
    line break stands between two backticks in a text that holds no other
    markup, [countWords] is the word count of the text without the
    backticks. *)
Theorem countWords_code_span (a t b : jsstring) :
  Forall (fun c => is_trigger c = false) a ->
  Forall (fun c => is_trigger c = false) t ->
  Forall (fun c => is_trigger c = false) b ->
  t <> [] ->
  Forall (fun c => is_line_terminator c = false) t ->
  countWords (a ++ "`" ++ t ++ "`" ++ b) = words false (a ++ t ++ b).
Proof.
  intros Ha Ht Hb Hne Hl.
  apply plainText_after_inline_code.
  - now apply trigger_free_app3.
  - unfold re_heading_marker. apply replace_head_id; [lia | class_free].
  - unfold re_bold, chr at 1. apply replace_head_id; [lia | class_free].
  - unfold re_italic, chr at 1. apply replace_head_id; [lia | class_free].
  - change (a ++ "`" ++ t ++ "`" ++ b) with (a ++ "`"%char :: (t ++ ["`"%char] ++ b)).
    rewrite (app_assoc t).
    unfold re_inline_code, chr at 1.
    rewrite (replace_one_match _ _ _ _ _ _ [Grp 1] a b _ "`" [t]);
      [simpl; now rewrite app_nil_r | lia | class_free | class_free |].
    fold (chr "`"). rewrite <- app_assoc. simpl app.
    rewrite (run_delimited_one "`" _ t b 0 Hne).
    + do 2 f_equal. simpl. rewrite length_app. simpl. lia.
    + clear Hne. induction Hl as [|c t Hc Hl IH]; [constructor|].
      inversion Ht as [|? ? Htc Ht']; subst.
      constructor; [|now apply IH].
      apply not_trigger in Htc. unfold is_dot. rewrite Hc. intuition.
      apply negb_true_iff. intuition.
Qed.

Lemma countWords_code_span_witness :
  countWords ("run " ++ "`" ++ "npm install" ++ "`" ++ " first")
  = words false ("run " ++ "npm install" ++ " first").
Proof.
  apply (countWords_code_span "run " "npm install" " first");
    try (repeat constructor); discriminate.
Defined.

Lemma run_link_match (prev : option ascii) (t u b : jsstring) :
  t <> [] -> u <> [] ->
  Forall (fun c => is_dot c = true /\ negb (is_char "]" c) = true) t ->
  Forall (fun c => is_dot c = true /\ negb (is_char ")" c) = true) u ->
  run re_link prev ("["%char :: t ++ "]"%char :: "("%char :: u ++ ")"%char :: b) 0 []
  = Some ([t], 1 + length t + 2 + length u + 1).
Proof.
  intros Ht Hu Ft Fu. unfold re_link.
  rewrite run_chr; cbv beta iota; rewrite is_char_refl; cbv beta iota.
  unfold plus_lazy_group. rewrite run_cls.
  rewrite (cls_loop_lazy_skips is_dot (fun c => negb (is_char "]" c)) 1);
    [| intros k acc prev' c v Hq; rewrite run_chr;
       apply negb_true_iff in Hq; now rewrite Hq
     | exact Ft].
  apply cls_loop_lazy_here; [destruct t; [contradiction | simpl; lia]|].
  rewrite run_chr; cbv beta iota; rewrite is_char_refl; cbv beta iota.
  rewrite run_chr; cbv beta iota; rewrite is_char_refl; cbv beta iota.
  unfold plus_lazy. rewrite run_cls.
  rewrite (cls_loop_lazy_skips is_dot (fun c => negb (is_char ")" c)) 1);
    [| intros k acc prev' c v Hq; rewrite run_chr;
       apply negb_true_iff in Hq; now rewrite Hq
     | exact Fu].
  apply cls_loop_lazy_here; [destruct u; [contradiction | simpl; lia]|].
  rewrite run_chr; cbv beta iota; rewrite is_char_refl; cbv beta iota.
  cbn [run]. unfold push_capture. rewrite app_nil_r, rev_involutive.
  do 2 f_equal. lia.
Qed.

Lemma countWords_link_text (a t u b : jsstring) :
  Forall (fun c => is_trigger c = false) a ->
  Forall (fun c => is_trigger c = false) t ->
  Forall (fun c => is_trigger c = false) b ->
  t <> [] ->
  Forall (fun c => is_line_terminator c = false /\ is_char "]" c = false) t ->
  u <> [] ->
  Forall (fun c => is_line_terminator c = false /\ is_char ")" c = false
                   /\ is_char "#" c = false /\ is_char "*" c = false
                   /\ is_char "`" c = false) u ->
  countWords (a ++ "[" ++ t ++ "](" ++ u ++ ")" ++ b) = words false (a ++ t ++ b).
Proof.
  intros Ha Ht Hb Hne Htl Hue Hu.
  set (md := a ++ "[" ++ t ++ "](" ++ u ++ ")" ++ b).
  assert (Hs : Forall (fun c => is_trigger c = false) (a ++ t ++ b))
    by now apply trigger_free_app3.
  rewrite <- (countWords_plain _ Hs).
  assert (H1 : replace re_heading_marker [] md = md)
    by (unfold re_heading_marker; apply replace_head_id; [lia | unfold md; class_free2]).
  assert (H2 : replace re_bold [Grp 1] md = md)
    by (unfold re_bold, chr at 1; apply replace_head_id; [lia | unfold md; class_free2]).
  assert (H3 : replace re_italic [Grp 1] md = md)
    by (unfold re_italic, chr at 1; apply replace_head_id; [lia | unfold md; class_free2]).
  assert (H4 : replace re_inline_code [Grp 1] md = md)
    by (unfold re_inline_code, chr at 1; apply replace_head_id;
        [lia | unfold md; class_free2]).
  assert (H5 : replace re_code_block [] md = md)
    by (unfold re_code_block, chr at 1; apply replace_head_id;
        [lia | unfold md; class_free2]).
  assert (H6 : replace re_link [Grp 1] md = a ++ t ++ b).
  { unfold md.
    change (a ++ "[" ++ t ++ "](" ++ u ++ ")" ++ b)
      with (a ++ "["%char :: (t ++ "]"%char :: "("%char :: (u ++ ")"%char :: b))).
    replace (t ++ "]"%char :: "("%char :: (u ++ ")"%char :: b))
      with ((t ++ "]"%char :: "("%char :: u ++ [")"%char]) ++ b)
      by (rewrite <- app_assoc; simpl; now rewrite <- app_assoc).
    unfold re_link at 1, chr at 1.
    rewrite (replace_one_match _ _ _ _ _ _ [Grp 1] a b _ "[" [t]);
      [simpl; now rewrite app_nil_r | lia | class_free | class_free |].
    fold (chr "["). fold re_link.
    rewrite <- app_assoc. simpl app. rewrite <- app_assoc. simpl app.
    rewrite (run_link_match _ t u b Hne Hue).
    - do 2 f_equal. rewrite length_app. simpl. rewrite length_app. simpl. lia.
    - eapply Forall_impl; [|exact Htl]. cbv beta. unfold is_dot.
      intros c [E1 E2]. now rewrite E1, E2.
    - eapply Forall_impl; [|exact Hu]. cbv beta. unfold is_dot.
      intros c [E1 [E2 _]]. now rewrite E1, E2. }
  set (s := a ++ t ++ b) in *.
  assert (Hs1 : replace re_heading_marker [] s = s)
    by (unfold re_heading_marker; apply replace_head_id; [lia | class_free]).
  assert (Hs2 : replace re_bold [Grp 1] s = s)
    by (unfold re_bold, chr at 1; apply replace_head_id; [lia | class_free]).
  assert (Hs3 : replace re_italic [Grp 1] s = s)
    by (unfold re_italic, chr at 1; apply replace_head_id; [lia | class_free]).
  assert (Hs4 : replace re_inline_code [Grp 1] s = s)
    by (unfold re_inline_code, chr at 1; apply replace_head_id; [lia | class_free]).
  assert (Hs5 : replace re_code_block [] s = s)
    by (unfold re_code_block, chr at 1; apply replace_head_id; [lia | class_free]).
  assert (Hs6 : replace re_link [Grp 1] s = s)
    by (unfold re_link, chr at 1; apply replace_head_id; [lia | class_free]).
  unfold countWords, plainText.
  now rewrite H1, H2, H3, H4, H5, H6, Hs1, Hs2, Hs3, Hs4, Hs5, Hs6.
Qed.

(** X21.  A link counts as its text, the address is dropped: where a link
    with a one-line text and a one-line address stands in a text that holds
    no other markup, [countWords] is the word count of the text with the
    link replaced by its link text. *)
Theorem countWords_link (a t u b : jsstring) :
  Forall (fun c => is_trigger c = false) a ->
  Forall (fun c => is_trigger c = false) t ->
  Forall (fun c => is_trigger c = false) b ->
  t <> [] ->
  Forall (fun c => is_line_terminator c = false /\ is_char "]" c = false) t ->
  u <> [] ->
  Forall (fun c => is_line_terminator c = false /\ is_char ")" c = false
                   /\ is_char "#" c = false /\ is_char "*" c = false
                   /\ is_char "`" c = false) u ->
  countWords (a ++ "[" ++ t ++ "](" ++ u ++ ")" ++ b) = words false (a ++ t ++ b).
Proof. apply countWords_link_text. Qed.

Lemma countWords_link_witness :
  countWords ("see " ++ "[" ++ "the docs" ++ "](" ++ "http://x.org/a-1" ++ ")" ++ " now")
  = words false ("see " ++ "the docs" ++ " now").
Proof.
  apply (countWords_link "see " "the docs" "http://x.org/a-1" " now");
    try discriminate; repeat constructor.
Defined.

(** X22.  An image is not dropped: the link pattern runs first and takes the
    bracketed part, so the exclamation mark and the alternative text stay
    and are counted. *)
Theorem countWords_image_keeps_alt_text (a t u b : jsstring) :
  Forall (fun c => is_trigger c = false) a ->
  Forall (fun c => is_trigger c = false) t ->
  Forall (fun c => is_trigger c = false) b ->
  t <> [] ->
  Forall (fun c => is_line_terminator c = false /\ is_char "]" c = false) t ->
  u <> [] ->
  Forall (fun c => is_line_terminator c = false /\ is_char ")" c = false
                   /\ is_char "#" c = false /\ is_char "*" c = false
                   /\ is_char "`" c = false) u ->
  countWords (a ++ "![" ++ t ++ "](" ++ u ++ ")" ++ b)
  = words false (a ++ "!" ++ t ++ b).
Proof.
  intros Ha Ht Hb Hne Htl Hue Hu.
  pose proof (countWords_link_text (a ++ "!") t u b) as H.
  rewrite <- !app_assoc in H. apply H; try assumption.
  apply Forall_app. split; [exact Ha | repeat constructor].
Qed.

Lemma countWords_image_witness :
  countWords ("a " ++ "![" ++ "big cat" ++ "](" ++ "cat.png" ++ ")" ++ " b")
  = words false ("a " ++ "!" ++ "big cat" ++ " b").
Proof.
  apply (countWords_image_keeps_alt_text "a " "big cat" "cat.png" " b");
    try discriminate; repeat constructor.
Defined.

Lemma take_while_run (p : ascii -> bool) (w s : jsstring) :
  Forall (fun c => p c = true) w ->
  match s with d :: _ => p d = false | [] => True end ->
  take_while p (w ++ s) = w.
Proof.
  intros Hw Hs. induction Hw as [|c w Hc _ IH]; simpl.
  - destruct s as [|d s]; [reflexivity | simpl; now rewrite Hs].
  - now rewrite Hc, IH.
Qed.

Lemma run_heading_marker (prev : option ascii) (k : nat) (ws b : jsstring) :
  1 <= k <= 6 ->
  ws <> [] ->
  Forall (fun c => is_space c = true) ws ->
  starts_with_space b = false ->
  run re_heading_marker prev (repeat "#"%char k ++ ws ++ b) 0 []
  = Some ([], k + length ws).
Proof.
  intros Hk Hne Hws Hb. unfold re_heading_marker. rewrite run_cls.
  assert (Htw : take_while is_space (ws ++ b) = ws).
  { apply take_while_run; [exact Hws|]. destruct b; [exact I | exact Hb]. }
  apply cls_loop_greedy_all.
  - apply repeat_hashes.
  - rewrite repeat_length. simpl. lia.
  - rewrite repeat_length. simpl. lia.
  - destruct ws as [|c ws]; [contradiction|]. simpl.
    inversion Hws; subst. now apply space_is_not_hash.
  - rewrite run_plus_last, Htw, repeat_length.
    destruct ws as [|c ws]; [contradiction|]. simpl. do 2 f_equal.
Qed.

(** X23.  A heading marker is dropped with the whitespace behind it: where
    one to six hashes and whitespace stand before a text, in a text that
    holds no other markup, [countWords] is the word count of the text
    without the hashes and that whitespace. *)
Theorem countWords_heading_marker (a ws b : jsstring) (k : nat) :
  Forall (fun c => is_trigger c = false) a ->
  Forall (fun c => is_trigger c = false) b ->
  1 <= k <= 6 ->
  ws <> [] ->
  Forall (fun c => is_space c = true) ws ->
  starts_with_space b = false ->
  countWords (a ++ repeat "#"%char k ++ ws ++ b) = words false (a ++ b).
Proof.
  intros Ha Hb Hk Hne Hws Hsb.
  assert (Hs : Forall (fun c => is_trigger c = false) (a ++ b))
    by (apply Forall_app; now split).
  rewrite <- (countWords_plain _ Hs).
  assert (H1 : replace re_heading_marker [] (a ++ repeat "#"%char k ++ ws ++ b) = a ++ b).
  { destruct k as [|k]; [lia|]. simpl repeat.
    change (a ++ ("#"%char :: repeat "#"%char k) ++ ws ++ b)
      with (a ++ "#"%char :: (repeat "#"%char k ++ ws ++ b)).
    rewrite (app_assoc (repeat "#"%char k)).
    unfold re_heading_marker.
    rewrite (replace_one_match _ _ _ _ _ _ [] a b _ "#" []);
      [reflexivity | lia | class_free | class_free |].
    fold re_heading_marker. rewrite <- app_assoc.
    change ("#"%char :: repeat "#"%char k ++ ws ++ b)
      with (repeat "#"%char (S k) ++ ws ++ b).
    rewrite (run_heading_marker _ (S k) ws b Hk Hne Hws Hsb).
    do 2 f_equal. rewrite length_app, repeat_length. lia. }
  assert (Hs1 : replace re_heading_marker [] (a ++ b) = a ++ b)
    by (unfold re_heading_marker; apply replace_head_id; [lia | class_free]).
  unfold countWords, plainText. now rewrite H1, Hs1.
Qed.

Lemma countWords_heading_witness :
  countWords ("Intro
" ++ repeat "#"%char 2 ++ " " ++ "Second title")
  = words false ("Intro
" ++ "Second title").
Proof.
  apply (countWords_heading_marker "Intro
" " " "Second title" 2); try discriminate; try lia; try reflexivity;
    repeat constructor.
Defined.

(** ** Markers that are deleted wherever they stand *)

Lemma run_image_no_bracket (prev : option ascii) (u : jsstring) :
  Forall (fun c => is_char "[" c = false) u -> run re_image prev u 0 [] = None.
Proof.
  intros H. unfold re_image. rewrite run_chr.
  destruct H as [|c u Hc Hu]; [reflexivity|].
  destruct (is_char "!" c); [|reflexivity].
  rewrite run_chr. destruct Hu as [|d u Hd _]; [reflexivity|].
  now rewrite Hd.
Qed.

(** The eight steps up to the blockquote step leave a text alone that holds
    none of the characters they start from. *)
Lemma early_steps_id (s : jsstring) :
  Forall (fun c => is_char "#" c = false /\ is_char "*" c = false
                   /\ is_char "`" c = false /\ is_char "[" c = false
                   /\ is_char ">" c = false) s ->
  replace re_blockquote []
    (replace re_image []
    (replace re_link [Grp 1]
    (replace re_code_block []
    (replace re_inline_code [Grp 1]
    (replace re_italic [Grp 1]
    (replace re_bold [Grp 1]
    (replace re_heading_marker [] s))))))) = s.
Proof.
  intros H.
  assert (H1 : replace re_heading_marker [] s = s)
    by (unfold re_heading_marker; apply replace_head_id; [lia | class_free2]).
  assert (H2 : replace re_bold [Grp 1] s = s)
    by (unfold re_bold, chr at 1; apply replace_head_id; [lia | class_free2]).
  assert (H3 : replace re_italic [Grp 1] s = s)
    by (unfold re_italic, chr at 1; apply replace_head_id; [lia | class_free2]).
  assert (H4 : replace re_inline_code [Grp 1] s = s)
    by (unfold re_inline_code, chr at 1; apply replace_head_id; [lia | class_free2]).
  assert (H5 : replace re_code_block [] s = s)
    by (unfold re_code_block, chr at 1; apply replace_head_id; [lia | class_free2]).
  assert (H6 : replace re_link [Grp 1] s = s)
    by (unfold re_link, chr at 1; apply replace_head_id; [lia | class_free2]).
  assert (H7 : replace re_image [] s = s).
  { unfold replace.
    apply (replace_no_match (fun c => is_char "[" c = false));
      [intros; now apply run_image_no_bracket | class_free2]. }
  assert (H8 : replace re_blockquote [] s = s)
    by (unfold re_blockquote, chr at 1; apply replace_head_id; [lia | class_free2]).
  now rewrite H1, H2, H3, H4, H5, H6, H7, H8.
Qed.

Lemma digit_is_no_early_head (c : ascii) :
  is_digit c = true ->
  is_char "#" c = false /\ is_char "*" c = false /\ is_char "`" c = false
  /\ is_char "[" c = false /\ is_char ">" c = false.
Proof.
  destruct c as [[] [] [] [] [] [] [] []]; vm_compute; intros H;
    first [discriminate | repeat split; reflexivity].
Qed.

Lemma digit_is_no_bullet (c : ascii) : is_digit c = true -> is_bullet c = false.
Proof.
  destruct c as [[] [] [] [] [] [] [] []]; vm_compute; intros H;
    first [discriminate | reflexivity].
Qed.

Lemma trigger_free_early (s : jsstring) :
  Forall (fun c => is_trigger c = false) s ->
  Forall (fun c => is_char "#" c = false /\ is_char "*" c = false
                   /\ is_char "`" c = false /\ is_char "[" c = false
                   /\ is_char ">" c = false) s.
Proof.
  apply Forall_impl. intros c Hc. apply not_trigger in Hc. intuition.
Qed.

Lemma blank_is_trigger_free (ws : jsstring) :
  Forall (fun c => is_space c = true) ws -> Forall (fun c => is_trigger c = false) ws.
Proof. apply Forall_impl. apply space_is_not_trigger. Qed.

Lemma run_ordered_marker (prev : option ascii) (ds ws b : jsstring) :
  ds <> [] -> Forall (fun c => is_digit c = true) ds ->
  ws <> [] -> Forall (fun c => is_space c = true) ws ->
  starts_with_space b = false ->
  run re_ordered_marker prev (ds ++ "."%char :: ws ++ b) 0 []
  = Some ([], length ds + 1 + length ws).
Proof.
  intros Hd Fd Hw Fw Hb. unfold re_ordered_marker, plus at 1. rewrite run_cls.
  assert (Htw : take_while is_space (ws ++ b) = ws).
  { apply take_while_run; [exact Fw|]. destruct b; [exact I | exact Hb]. }
  apply cls_loop_greedy_all.
  - exact Fd.
  - exact I.
  - destruct ds; [contradiction | simpl; lia].
  - reflexivity.
  - rewrite run_chr; cbv beta iota; rewrite is_char_refl; cbv beta iota.
    rewrite run_plus_last, Htw.
    destruct ws as [|c ws]; [contradiction|]. simpl. do 2 f_equal; lia.
Qed.

(** X24.  A number followed by a full stop and whitespace is deleted
    wherever it stands, not only at the start of a list item: in a text
    without other markup [countWords] is the word count of the text without
    the number, the stop and the whitespace. *)
Theorem countWords_drops_numbered_marker (a ds ws b : jsstring) :
  Forall (fun c => is_trigger c = false) a ->
  Forall (fun c => is_trigger c = false) b ->
  ds <> [] -> Forall (fun c => is_digit c = true) ds ->
  ws <> [] -> Forall (fun c => is_space c = true) ws ->
  starts_with_space b = false ->
  countWords (a ++ ds ++ "." ++ ws ++ b) = words false (a ++ b).
Proof.
  intros Ha Hb Hd Fd Hw Fw Hsb.
  set (md := a ++ ds ++ "." ++ ws ++ b).
  assert (Hs : Forall (fun c => is_trigger c = false) (a ++ b))
    by (apply Forall_app; now split).
  rewrite <- (countWords_plain _ Hs).
  pose proof (trigger_free_early _ Ha) as Ea.
  pose proof (trigger_free_early _ Hb) as Eb.
  pose proof (trigger_free_early _ (blank_is_trigger_free _ Fw)) as Ew.
  assert (Ed : Forall (fun c => is_char "#" c = false /\ is_char "*" c = false
                                /\ is_char "`" c = false /\ is_char "[" c = false
                                /\ is_char ">" c = false) ds)
    by (eapply Forall_impl; [|exact Fd]; apply digit_is_no_early_head).
  assert (H1 : Forall (fun c => is_char "#" c = false /\ is_char "*" c = false
                                /\ is_char "`" c = false /\ is_char "[" c = false
                                /\ is_char ">" c = false) md).
  { unfold md. repeat (apply Forall_app; split); try assumption. repeat constructor. }
  assert (H2 : replace re_list_marker [] md = md).
  { unfold re_list_marker. apply replace_head_id; [lia|]. unfold md.
    repeat (apply Forall_app; split).
    - eapply Forall_impl; [|exact Ha]. intros c Hc. apply not_trigger in Hc. intuition.
    - eapply Forall_impl; [|exact Fd]. apply digit_is_no_bullet.
    - repeat constructor.
    - eapply Forall_impl; [|exact (blank_is_trigger_free _ Fw)].
      intros c Hc. apply not_trigger in Hc. intuition.
    - eapply Forall_impl; [|exact Hb]. intros c Hc. apply not_trigger in Hc. intuition. }
  assert (H3 : replace re_ordered_marker [] md = a ++ b).
  { unfold md. destruct ds as [|d ds]; [contradiction|].
    change (a ++ (d :: ds) ++ "." ++ ws ++ b)
      with (a ++ d :: (ds ++ "."%char :: ws ++ b)).
    replace (ds ++ "."%char :: ws ++ b) with ((ds ++ "."%char :: ws) ++ b)
      by (rewrite <- app_assoc; reflexivity).
    unfold re_ordered_marker, plus at 1.
    rewrite (replace_one_match _ _ _ _ _ _ [] a b _ d []);
      [reflexivity | lia | class_free | class_free |].
    fold (plus is_digit). fold re_ordered_marker.
    rewrite <- app_assoc.
    change (d :: ds ++ ("."%char :: ws) ++ b) with ((d :: ds) ++ "."%char :: ws ++ b).
    rewrite (run_ordered_marker _ (d :: ds) ws b Hd Fd Hw Fw Hsb).
    do 2 f_equal. simpl. rewrite length_app. simpl. lia. }
  pose proof (early_steps_id _ H1) as E1.
  pose proof (early_steps_id _ (trigger_free_early _ Hs)) as E2.
  assert (Hs2 : replace re_list_marker [] (a ++ b) = a ++ b)
    by (unfold re_list_marker; apply replace_head_id; [lia | class_free]).
  assert (Hs3 : replace re_ordered_marker [] (a ++ b) = a ++ b)
    by (unfold re_ordered_marker, plus at 1; apply replace_head_id; [lia | class_free]).
  unfold countWords, plainText. fold md.
  now rewrite E1, E2, H2, H3, Hs2, Hs3.
Qed.

Lemma countWords_numbered_witness :
  countWords ("It was " ++ "2024" ++ "." ++ " " ++ "Then came spring")
  = words false ("It was " ++ "Then came spring").
Proof.
  apply (countWords_drops_numbered_marker "It was " "2024" " " "Then came spring");
    try discriminate; try reflexivity; repeat constructor.
Defined.

Lemma run_list_marker (prev : option ascii) (m : ascii) (ws b : jsstring) :
  is_bullet m = true ->
  ws <> [] -> Forall (fun c => is_space c = true) ws ->
  starts_with_space b = false ->
  run re_list_marker prev (m :: ws ++ b) 0 [] = Some ([], 1 + length ws).
Proof.
  intros Hm Hw Fw Hb. unfold re_list_marker. rewrite run_cls.
  assert (Htw : take_while is_space (ws ++ b) = ws).
  { apply take_while_run; [exact Fw|]. destruct b; [exact I | exact Hb]. }
  apply (cls_loop_greedy_all is_bullet 1 (Some 1) _ [m] (ws ++ b)).
  - now constructor.
  - simpl. lia.
  - simpl. lia.
  - destruct ws as [|c ws]; [contradiction|]. simpl.
    inversion Fw as [|? ? Hc _]; subst.
    apply space_is_not_trigger, not_trigger in Hc. intuition.
  - rewrite run_plus_last, Htw.
    destruct ws as [|c ws]; [contradiction|]. simpl. do 2 f_equal; lia.
Qed.

(** X25.  A hyphen or a plus followed by whitespace is deleted wherever it
    stands, not only at the start of a list item: in a text without other
    markup [countWords] is the word count of the text without that sign and
    the whitespace behind it. *)
Theorem countWords_drops_list_marker (a ws b : jsstring) (m : ascii) :
  m = "-"%char \/ m = "+"%char ->
  Forall (fun c => is_trigger c = false) a ->
  Forall (fun c => is_trigger c = false) b ->
  ws <> [] -> Forall (fun c => is_space c = true) ws ->
  starts_with_space b = false ->
  countWords (a ++ m :: ws ++ b) = words false (a ++ b).
Proof.
  intros Hm Ha Hb Hw Fw Hsb.
  set (md := a ++ m :: ws ++ b).
  assert (Hs : Forall (fun c => is_trigger c = false) (a ++ b))
    by (apply Forall_app; now split).
  rewrite <- (countWords_plain _ Hs).
  assert (Hbul : is_bullet m = true) by (destruct Hm; subst; reflexivity).
  assert (H1 : Forall (fun c => is_char "#" c = false /\ is_char "*" c = false
                                /\ is_char "`" c = false /\ is_char "[" c = false
                                /\ is_char ">" c = false) md).
  { unfold md. apply Forall_app. split; [now apply trigger_free_early|].
    constructor; [destruct Hm; subst; repeat split; reflexivity|].
    apply Forall_app. split;
      [apply trigger_free_early, blank_is_trigger_free, Fw | now apply trigger_free_early]. }
  assert (H2 : replace re_list_marker [] md = a ++ b).
  { unfold md, re_list_marker.
    rewrite (replace_one_match _ _ _ _ _ _ [] a b ws m []);
      [reflexivity | lia | class_free | class_free |].
    fold re_list_marker.
    rewrite (run_list_marker _ m ws b Hbul Hw Fw Hsb). reflexivity. }
  pose proof (early_steps_id _ H1) as E1.
  pose proof (early_steps_id _ (trigger_free_early _ Hs)) as E2.
  assert (Hs2 : replace re_list_marker [] (a ++ b) = a ++ b)
    by (unfold re_list_marker; apply replace_head_id; [lia | class_free]).
  unfold countWords, plainText. fold md.
  now rewrite E1, E2, H2, Hs2.
Qed.

Lemma countWords_list_marker_witness :
  countWords ("well " ++ "-"%char :: " " ++ "known fact")
  = words false ("well " ++ "known fact").
Proof.
  apply (countWords_drops_list_marker "well " " " "known fact" "-"%char);
    try discriminate; try reflexivity; try (now left); repeat constructor.
Defined.

(** ** The first heading line of a text *)

Lemma run_bol (re : regex) (prev : option ascii) (s : jsstring) (n : nat)
  (caps : list jsstring) :
  run (Bol :: re) prev s n caps = if at_bol prev then run re prev s n caps else None.
Proof. reflexivity. Qed.

Lemma run_eol (re : regex) (prev : option ascii) (s : jsstring) (n : nat)
  (caps : list jsstring) :
  run (Eol :: re) prev s n caps = if at_eol s then run re prev s n caps else None.
Proof. reflexivity. Qed.

Lemma exec_heading_prefix (a s : jsstring) :
  forall prev pos,
    hash_at_line_start (at_bol prev) a = false ->
    exec_from headingRegex prev 0 pos (a ++ s)
    = exec_from headingRegex (prev_after a prev) 0 (pos + length a) s.
Proof.
  induction a as [|c a IH]; intros prev pos H.
  - simpl. now rewrite Nat.add_0_r.
  - simpl in H. apply orb_false_iff in H. destruct H as [H1 H2].
    simpl app. cbn [exec_from]. rewrite (run_heading_needs_hash _ _ _ H1).
    rewrite (IH (Some c) (S pos) H2). simpl length.
    now rewrite Nat.add_succ_r.
Qed.

Lemma run_heading_line (prev : option ascii) (k : nat) (ws t post : jsstring) :
  at_bol prev = true ->
  1 <= k <= 6 ->
  ws <> [] -> Forall (fun c => is_space c = true) ws ->
  t <> [] -> Forall (fun c => is_dot c = true) t ->
  starts_with_space t = false ->
  at_eol post = true ->
  run headingRegex prev (repeat "#"%char k ++ ws ++ t ++ post) 0 []
  = Some ([repeat "#"%char k; t], k + length ws + length t).
Proof.
  intros Hbol Hk Hw Fw Ht Ft Hst Heol. unfold headingRegex.
  rewrite run_bol, Hbol, run_cls.
  apply cls_loop_greedy_all.
  - apply repeat_hashes.
  - rewrite repeat_length. simpl. lia.
  - rewrite repeat_length. simpl. lia.
  - destruct ws as [|c ws]; [contradiction|]. simpl.
    inversion Fw; subst. now apply space_is_not_hash.
  - unfold plus. rewrite run_cls. apply cls_loop_greedy_all.
    + exact Fw.
    + exact I.
    + destruct ws; [contradiction | simpl; lia].
    + destruct t as [|c t]; [contradiction | exact Hst].
    + rewrite run_cls. apply (cls_loop_greedy_all is_dot 1 None _ t post).
      * exact Ft.
      * exact I.
      * destruct t; [contradiction | simpl; lia].
      * destruct post as [|c post]; [exact I|]. simpl in Heol.
        unfold is_dot. now rewrite Heol.
      * rewrite run_eol, Heol. cbn [run]. unfold push_capture.
        rewrite !app_nil_r, !rev_involutive, repeat_length. simpl.
        do 2 f_equal.
Qed.

(** X26.  The first heading line of a text is the first heading returned:
    where a line of one to six hashes, whitespace and a text follows a part
    in which no line starts with a hash, [extractHeadings] starts with the
    heading of that line, with the number of hashes as level, the trimmed
    text and its id. *)
Theorem extractHeadings_first_heading_line (a ws t post : jsstring) (k : nat) :
  hash_at_line_start true a = false ->
  line_start a ->
  1 <= k <= 6 ->
  ws <> [] -> Forall (fun c => is_space c = true) ws ->
  t <> [] -> Forall (fun c => is_dot c = true) t ->
  starts_with_space t = false ->
  line_end post ->
  exists rest,
    extractHeadings (a ++ repeat "#"%char k ++ ws ++ t ++ post)
    = {| level := k; text := trim t; id := slug (trim t) |} :: rest.
Proof.
  intros Ha Hls Hk Hw Fw Ht Ft Hst Hle.
  unfold extractHeadings, exec_all.
  rewrite (exec_heading_prefix a _ None 0 Ha).
  pose proof (run_heading_line (prev_after a None) k ws t post
                (line_start_at_bol _ Hls) Hk Hw Fw Ht Ft Hst
                (line_end_at_eol _ Hle)) as R.
  destruct k as [|k]; [lia|]. simpl repeat in *. simpl app in *.
  cbn [exec_from]. rewrite R. simpl map.
  eexists. f_equal. unfold heading_of_match. simpl.
  now rewrite repeat_length.
Qed.

Lemma first_heading_witness :
  exists rest,
    extractHeadings ("intro
" ++ repeat "#"%char 2 ++ " " ++ "My Title  " ++ "
more")
    = {| level := 2; text := trim "My Title  "; id := slug (trim "My Title  ") |} :: rest.
Proof.
  apply (extractHeadings_first_heading_line "intro
" " " "My Title  " "
more" 2).
  - reflexivity.
  - right. exists "intro", "010"%char. split; reflexivity.
  - lia.
  - discriminate.
  - repeat constructor.
  - discriminate.
  - repeat constructor.
  - reflexivity.
  - right. exists "010"%char, "more". split; reflexivity.
Defined.
